(** * A property-injection container: model of [src/container.ts]

    The module-level maps [registry] and [injections], the container's
    private [resolving] set and the objects created by [new type()] are
    gathered in one explicit [State] that every operation threads.

    Modelling conventions.
    - A class constructor ([Constructable]) is a value carrying its reference
      identity, its [name] and the constructor found one step up its
      prototype chain.  The chain is finite because a value of an inductive
      type is; it ends where the source finds [Object] (or no prototype).
      Every prototype is taken to hold the [constructor] of its own class,
      as a [class] declaration leaves it.
    - An instance is a reference: the index of its object in [heap].
      [new type()] appends a bare object, so references are never reused.
      Constructors are taken to do nothing else: they do not throw, do not
      call the container and return no object of their own.
    - [get] is recursive through the dependency graph, which may be cyclic;
      the model recurses on a [fuel] bound for the depth of nested calls and
      answers [None] when the bound is hit.  [throw] is the [Throw]
      completion; [try ... finally] runs its finaliser on both completions. *)

From stdpp Require Import base option list strings gmap sets fin_sets relations.

Module DI.

(** ** Data model *)

(** [type Constructable = new (...args) => T].  [ident] stands for the
    reference identity of the constructor function and [name] is
    [type.name].  [super] is what the walk of [get] finds one step up:
    [Object.getPrototypeOf(type.prototype)?.constructor] when that is a
    constructor other than [Object] ([Extends]), nothing otherwise
    ([Class]). *)
Inductive Constructable : Type :=
  | Class (i : positive) (n : string)
  | Extends (i : positive) (n : string) (parent : Constructable).

Definition ident (c : Constructable) : positive :=
  match c with Class i _ | Extends i _ _ => i end.
Definition name (c : Constructable) : string :=
  match c with Class _ n | Extends _ n _ => n end.
Definition super (c : Constructable) : option Constructable :=
  match c with Class _ _ => None | Extends _ _ p => Some p end.

(** The prototype chain of a class, itself first. *)
Fixpoint lineage (c : Constructable) : list (positive * string) :=
  match c with
  | Class i n => [(i, n)]
  | Extends i n p => (i, n) :: lineage p
  end.

Fixpoint of_lineage (l : list (positive * string)) : option Constructable :=
  match l with
  | [] => None
  | (i, n) :: l' =>
      Some match of_lineage l' with
           | Some p => Extends i n p
           | None => Class i n
           end
  end.

#[global] Instance Constructable_eq_dec : EqDecision Constructable.
Proof. solve_decision. Defined.

#[global] Program Instance Constructable_countable : Countable Constructable :=
  inj_countable lineage of_lineage _.
Next Obligation.
  intros c. induction c as [i n|i n p IH]; simpl; [done|by rewrite IH].
Qed.

(** [string | symbol]: a property key is a string or a symbol (identified by
    a number). *)
Definition PropertyKey : Type := string + positive.

(** A reference to an object: its index in the heap. *)
Abbreviation Ref := nat (only parsing).

(** [interface Metadata { instance?: T }]. *)
Record Metadata : Type := mkMetadata { instance : option Ref }.

(** One element of an [injections] array: [{ key, dependency }].  The
    dependency is whatever value reached [Inject], possibly [undefined]. *)
Record Injection : Type := mkInjection {
  key : PropertyKey;
  dependency : option Constructable;
}.

(** An object created by [new type()].  Only what the container writes is
    tracked: the own properties defined by injection. *)
Record Obj : Type := mkObj {
  constructedBy : Constructable;
  props : gmap PropertyKey Ref;
}.

(** [new Error(message)]. *)
Record Error : Type := mkError { message : string }.

Record State : Type := mkState {
  registry : gmap Constructable Metadata;
  injections : gmap Constructable (list Injection);
  resolving : gset Constructable;
  heap : list Obj;
}.

(** The state when the module has just been loaded. *)
Definition initial : State := mkState ∅ ∅ ∅ [].

(** How a call ends: [return v] or [throw e]. *)
Inductive Completion (A : Type) : Type :=
  | Normal (v : A)
  | Throw (e : Error).
Arguments Normal {A} v.
Arguments Throw {A} e.

(** The cached instance of a type: [registry.get(t)?.instance]. *)
Definition cached (st : State) (t : Constructable) : option Ref :=
  registry st !! t ≫= instance.

(** ** Registration: the decorators *)

(** [Injectable()(target)]: register [target] with empty metadata unless it
    is registered already. *)
Definition Injectable (target : Constructable) (st : State) : State :=
  if decide (is_Some (registry st !! target)) then st
  else mkState (<[target := mkMetadata None]> (registry st))
               (injections st) (resolving st) (heap st).

(** [Inject(dependency)(target, propertyKey)], where [constructor] is
    [target.constructor]: push [{ key, dependency }] on the array of
    [constructor], created empty when absent. *)
Definition Inject (dependency : option Constructable)
    (constructor : Constructable) (propertyKey : PropertyKey)
    (st : State) : State :=
  let declared := default [] (injections st !! constructor) in
  mkState (registry st)
          (<[constructor := declared ++ [mkInjection propertyKey dependency]]>
             (injections st))
          (resolving st) (heap st).

(** ** Resolution: [DIContainer.get] *)

Definition msg_undefined : string :=
  "[DI] Cannot resolve dependency: type is undefined. Possible circular import or missing dependency.".

Definition msg_unregistered (type : Constructable) : string :=
  "[DI] " +:+ name type +:+ " is not registered. Use @Injectable".

Definition msg_circular (type : Constructable) : string :=
  "[DI] Circular dependency detected while resolving " +:+ name type.

(** [this.resolving.add(type)] and [this.resolving.delete(type)]. *)
Definition resolving_add (type : Constructable) (st : State) : State :=
  mkState (registry st) (injections st) ({[type]} ∪ resolving st) (heap st).

Definition resolving_delete (type : Constructable) (st : State) : State :=
  mkState (registry st) (injections st) (resolving st ∖ {[type]}) (heap st).

(** [new type()]: a bare object at a fresh reference. *)
Definition construct (type : Constructable) (st : State) : Ref * State :=
  (length (heap st),
   mkState (registry st) (injections st) (resolving st)
           (heap st ++ [mkObj type ∅])).

(** [Object.defineProperty(instance, key, { value, writable: true,
    configurable: true })].  [instance] is always an allocated object where
    [get] calls it; on a dangling reference [alter] changes nothing. *)
Definition setProp (k : PropertyKey) (value : Ref) (o : Obj) : Obj :=
  mkObj (constructedBy o) (<[k := value]> (props o)).

Definition defineProperty (instance : Ref) (k : PropertyKey) (value : Ref)
    (st : State) : State :=
  mkState (registry st) (injections st) (resolving st)
          (alter (setProp k value) instance (heap st)).

(** [meta.instance = instance], [meta] being the metadata object of [type]
    held by the registry. *)
Definition cache (type : Constructable) (instance : Ref) (st : State) : State :=
  mkState (<[type := mkMetadata (Some instance)]> (registry st))
          (injections st) (resolving st) (heap st).

(** What a call of [get] yields in the model: nothing when the recursion
    bound is hit, else a completion and the state it leaves. *)
Definition Outcome (A : Type) : Type := option (Completion A * State).

Section walk.
(** The two loops of [get], over the resolver [resolve] used for the
    nested [this.get(dependency)]. *)
Variable resolve : State → option Constructable → Outcome Ref.

(** [for (const { key, dependency } of currentInjections) { ... }] *)
Fixpoint injectAll (instance : Ref) (currentInjections : list Injection)
    (st : State) : Outcome unit :=
  match currentInjections with
  | [] => Some (Normal (), st)
  | inj :: rest =>
      match resolve st (dependency inj) with
      | None => None
      | Some (Throw e, st1) => Some (Throw e, st1)
      | Some (Normal value, st1) =>
          injectAll instance rest (defineProperty instance (key inj) value st1)
      end
  end.

(** [let current = type; while (current) { ...; current = <one step up> }] *)
Fixpoint walkChain (instance : Ref) (current : Constructable)
    (st : State) : Outcome unit :=
  let currentInjections := default [] (injections st !! current) in
  match injectAll instance currentInjections st with
  | None => None
  | Some (Throw e, st1) => Some (Throw e, st1)
  | Some (Normal _, st1) =>
      match current with
      | Class _ _ => Some (Normal (), st1)
      | Extends _ _ parent => walkChain instance parent st1
      end
  end.
End walk.

(** [get<T>(type: Constructable<T>): T] *)
Fixpoint get (fuel : nat) (st : State) (type : option Constructable)
    : Outcome Ref :=
  match type with
  | None => Some (Throw (mkError msg_undefined), st)
  | Some type =>
      match registry st !! type with
      | None => Some (Throw (mkError (msg_unregistered type)), st)
      | Some meta =>
          match instance meta with
          | Some inst => Some (Normal inst, st)
          | None =>
              if decide (type ∈ resolving st)
              then Some (Throw (mkError (msg_circular type)), st)
              else
                match fuel with
                | 0 => None
                | S fuel =>
                    let st := resolving_add type st in
                    (* try *)
                    let '(inst, st) := construct type st in
                    match walkChain (get fuel) inst type st with
                    | None => None
                    | Some (Normal _, st) =>
                        let st := cache type inst st in
                        (* finally *)
                        Some (Normal inst, resolving_delete type st)
                    | Some (Throw e, st) =>
                        (* finally *)
                        Some (Throw e, resolving_delete type st)
                    end
                end
          end
      end
  end.

(** [reset()]: [delete meta.instance] for every metadata of the registry. *)
Definition reset (st : State) : State :=
  mkState ((λ _, mkMetadata None) <$> registry st)
          (injections st) (resolving st) (heap st).

(** A call of [Container.get] from outside the container.  The bound given
    to the recursion is the number of registered types, which is shown
    below never to be hit. *)
Definition Container_get (st : State) (type : option Constructable)
    : Outcome Ref :=
  get (size (registry st)) st type.

(** ** Definitions used by the statements *)

(** [instance[k]] for an injected property. *)
Definition propOf (st : State) (instance : Ref) (k : PropertyKey) : option Ref :=
  heap st !! instance ≫= λ o, props o !! k.

(** The records the walk of [get] visits for [type], in the order it visits
    them: those declared on [type], then those of each ancestor upward. *)
Fixpoint ancestors (type : Constructable) : list Constructable :=
  type :: match type with
          | Class _ _ => []
          | Extends _ _ parent => ancestors parent
          end.

Definition allInjections (inj : gmap Constructable (list Injection))
    (type : Constructable) : list Injection :=
  ancestors type ≫= λ a, default [] (inj !! a).

(** The three errors [get] raises by itself. *)
Definition container_error (e : Error) : Prop :=
  e = mkError msg_undefined
  ∨ (∃ t, e = mkError (msg_unregistered t))
  ∨ (∃ t, e = mkError (msg_circular t)).

(** What a call of [get] may change, as a relation between the state it
    finds and the state it leaves. *)
Record steady (st st' : State) : Prop := Steady {
  steady_injections : injections st' = injections st;
  steady_resolving : resolving st' = resolving st;
  steady_dom : dom (registry st') = dom (registry st);
  steady_cached : ∀ t v, cached st t = Some v → cached st' t = Some v;
  steady_pending : ∀ t,
    t ∈ resolving st → cached st t = None → cached st' t = None;
  steady_length : length (heap st) ≤ length (heap st');
  steady_fresh : ∀ t v,
    cached st' t = Some v →
    cached st t = Some v ∨ length (heap st) ≤ v < length (heap st');
}.

(** Objects below [bound] are left as they were. *)
Definition untouched_below (bound : nat) (st st' : State) : Prop :=
  ∀ i, i < bound → heap st' !! i = heap st !! i.

(** ** Frames and nested calls *)

(** The early exits of [get], before [this.resolving.add(type)]: [Some] of
    the completion when one of them is taken. *)
Definition gate (st : State) (type : option Constructable)
    : option (Completion Ref) :=
  match type with
  | None => Some (Throw (mkError msg_undefined))
  | Some t =>
      match registry st !! t with
      | None => Some (Throw (mkError (msg_unregistered t)))
      | Some meta =>
          match instance meta with
          | Some inst => Some (Normal inst)
          | None =>
              if decide (t ∈ resolving st)
              then Some (Throw (mkError (msg_circular t)))
              else None
          end
      end
  end.

(** The state in which the walk of a frame for [type] starts. *)
Definition entered (type : Constructable) (st : State) : State :=
  (construct type (resolving_add type st)).2.

(** The end of a frame, given how its walk ended. *)
Definition leave (type : Constructable) (inst : Ref) (walked : Outcome unit)
    : Outcome Ref :=
  match walked with
  | None => None
  | Some (Normal _, st) =>
      Some (Normal inst, resolving_delete type (cache type inst st))
  | Some (Throw e, st) => Some (Throw e, resolving_delete type st)
  end.

(** The registered types that are not being resolved: each nested frame
    takes one of them. *)
Definition pending (st : State) : nat :=
  size (dom (registry st) ∖ resolving st).

(** A call of [get]: the bound, the state it finds and its argument. *)
Record Call : Type := mkCall {
  call_fuel : nat;
  call_state : State;
  call_type : option Constructable;
}.

Definition run (c : Call) : Outcome Ref :=
  get (call_fuel c) (call_state c) (call_type c).

(** [calls c1 c2]: the frame of [c1] makes the call [c2] from its walk.  The
    records before [inj] have been injected, leaving [st1]; the dependency of
    [inj] is resolved next. *)
Inductive calls : Call → Call → Prop :=
  | calls_intro fuel st t pre inj post st1 :
      gate st (Some t) = None →
      allInjections (injections st) t = pre ++ inj :: post →
      injectAll (get fuel) (length (heap st)) pre (entered t st)
        = Some (Normal (), st1) →
      calls (mkCall (S fuel) st (Some t)) (mkCall fuel st1 (dependency inj)).

(** No cached instance for a type that is being resolved. *)
Definition stack_uncached (st : State) : Prop :=
  ∀ t, t ∈ resolving st → cached st t = None.

(** ** Programs: sequences of calls from outside *)

(** What application code can do with the module. *)
Inductive Op : Type :=
  | OpInjectable (target : Constructable)
  | OpInject (dependency : option Constructable) (constructor : Constructable)
             (propertyKey : PropertyKey)
  | OpGet (type : option Constructable)
  | OpReset.

(** The state a call leaves, whether it returned or threw. *)
Definition after (st : State) (o : Outcome Ref) : State :=
  match o with Some (_, st') => st' | None => st end.

Definition step (st : State) (op : Op) : State :=
  match op with
  | OpInjectable target => Injectable target st
  | OpInject dependency constructor propertyKey =>
      Inject dependency constructor propertyKey st
  | OpGet type => after st (Container_get st type)
  | OpReset => reset st
  end.

Definition exec (ops : list Op) (st : State) : State := foldl step st ops.

(** ** What can be resolved *)

(** [resolvable st depth t]: [t] is registered and every record the walk
    visits for it has a defined dependency that is resolvable in turn, through
    fewer than [depth] levels. *)
Fixpoint resolvable (st : State) (depth : nat) (t : Constructable) : Prop :=
  match depth with
  | 0 => False
  | S depth =>
      is_Some (registry st !! t)
      ∧ Forall (λ inj, from_option (resolvable st depth) False (dependency inj))
               (allInjections (injections st) t)
  end.

#[global] Instance resolvable_dec st depth t : Decision (resolvable st depth t).
Proof.
  revert t. induction depth as [|depth IH]; intros t; simpl; [apply _|].
  apply and_dec; [apply _|]. apply Forall_dec.
  intros inj. destruct (dependency inj); simpl; apply _.
Defined.

(** Every cached instance belongs to a resolvable type. *)
Definition cache_sound (st : State) : Prop :=
  ∀ t v, cached st t = Some v → ∃ depth, resolvable st depth t.

(** Every cached instance is an object of the heap. *)
Definition cache_allocated (st : State) : Prop :=
  ∀ t v, cached st t = Some v → v < length (heap st).

(** The two phases of a program: declarations, then uses. *)
Definition is_declaration (op : Op) : Prop :=
  match op with OpInjectable _ | OpInject _ _ _ => True | _ => False end.

Definition is_use (op : Op) : Prop :=
  match op with OpGet _ | OpReset => True | _ => False end.

(** ** Programs under test *)

(** The classes of [index.test.ts].  A property decorator runs before the
    decorator of its class. *)
Definition Logger : Constructable := Class 1 "Logger".
Definition BaseController : Constructable := Class 2 "BaseController".
Definition MyController : Constructable :=
  Extends 3 "MyController" BaseController.
Definition TestA : Constructable := Class 4 "TestA".
Definition TestB : Constructable := Class 5 "TestB".
Definition UnDecoratedService : Constructable := Class 6 "UnDecoratedService".

Definition tests_program : list Op :=
  [ OpInjectable TestA;
    OpInject (Some TestA) TestB (inl "testA"); OpInjectable TestB;
    OpInjectable Logger;
    OpInject (Some Logger) BaseController (inl "logger");
    OpInjectable MyController ].

Definition tests_loaded : State := exec tests_program initial.

(** [TestA] is cached and (artificially) marked as being resolved. *)
Definition TestA_cached_resolving : State :=
  resolving_add TestA (exec [OpGet (Some TestB)] tests_loaded).

(** The fixtures [dependency-a.ts] and [dependency-b.ts] import each other:
    when the decorators of [B] run, the binding [A] has no value yet. *)
Definition FixtureA : Constructable := Class 12 "A".
Definition FixtureB : Constructable := Class 13 "B".

Definition fixtures_program : list Op :=
  [ OpInject None FixtureB (inl "a"); OpInjectable FixtureB;
    OpInject (Some FixtureB) FixtureA (inl "b"); OpInjectable FixtureA ].

Definition fixtures_loaded : State := exec fixtures_program initial.

(** Two classes that inject each other, both defined when the decorators
    run. *)
Definition CycA : Constructable := Class 7 "A".
Definition CycB : Constructable := Class 8 "B".

Definition cycle_program : list Op :=
  [ OpInject (Some CycB) CycA (inl "b"); OpInjectable CycA;
    OpInject (Some CycA) CycB (inl "a"); OpInjectable CycB ].

Definition cycle_loaded : State := exec cycle_program initial.

(** The state in which the frame of [CycB], called from the frame of
    [CycA], calls [get(A)]. *)
Definition cycle_reentered : State := entered CycB (entered CycA cycle_loaded).

(** A consumer of two services, the second of which was never registered. *)
Definition Foo : Constructable := Class 9 "Foo".
Definition Bar : Constructable := Class 10 "Bar".
Definition Consumer : Constructable := Class 11 "Consumer".

Definition broken_program : list Op :=
  [ OpInjectable Foo;
    OpInject (Some Foo) Consumer (inl "foo");
    OpInject (Some Bar) Consumer (inl "bar"); OpInjectable Consumer ].

Definition broken_loaded : State := exec broken_program initial.

(** A service shared by a root and by another of the root's dependencies. *)
Definition Shared : Constructable := Class 14 "Shared".
Definition Middle : Constructable := Class 15 "Middle".
Definition Root : Constructable := Class 16 "Root".

Definition diamond_program : list Op :=
  [ OpInjectable Shared;
    OpInject (Some Shared) Middle (inl "shared"); OpInjectable Middle;
    OpInject (Some Shared) Root (inl "shared");
    OpInject (Some Middle) Root (inl "middle"); OpInjectable Root ].

Definition diamond_loaded : State := exec diamond_program initial.

(** The state in which the frame of [Middle], called from the frame of
    [Root] after [Shared] has been resolved and injected, calls
    [get(Shared)]. *)
Definition diamond_reentered : State :=
  let in_root := entered Root diamond_loaded in
  let shared_done := after in_root (get 1 in_root (Some Shared)) in
  entered Middle (defineProperty 0 (inl "shared") 1 shared_done).

(** ** Definitions used by the further properties *)

(** The records a program declares on [c], in the order of its [Inject]
    calls. *)
Definition declared_by (c : Constructable) (ops : list Op) : list Injection :=
  omap (λ op,
          match op with
          | OpInject dependency constructor propertyKey =>
              if decide (constructor = c)
              then Some (mkInjection propertyKey dependency)
              else None
          | _ => None
          end) ops.

(** The classes a program passes to [Injectable]. *)
Definition decorated (ops : list Op) : list Constructable :=
  omap (λ op, match op with OpInjectable target => Some target | _ => None end)
       ops.

(** Every cached instance is an object constructed by the type it is cached
    for. *)
Definition cache_typed (st : State) : Prop :=
  ∀ t v, cached st t = Some v → constructedBy <$> heap st !! v = Some t.

(** Every record of every class names a dependency that is defined and
    registered. *)
Definition declared_closed (st : State) : Prop :=
  ∀ c inj,
    inj ∈ default [] (injections st !! c) →
    ∃ d, dependency inj = Some d ∧ is_Some (registry st !! d).

(** The properties a pass over [records] defines when every dependency is
    answered from the cache of [st]. *)
Definition injected (st : State) (records : list Injection)
    : gmap PropertyKey Ref :=
  foldl (λ m inj,
           match dependency inj ≫= cached st with
           | Some w => <[key inj := w]> m
           | None => m
           end) ∅ records.

(** The registered types a call may still construct: those with no cached
    instance that are not being resolved. *)
Definition constructible (st : State) : gset Constructable :=
  filter (λ t, cached st t = None ∧ t ∉ resolving st) (dom (registry st)).

(** What a call that ends with [r] in [st'] may have added to the heap of
    [st]. *)
Definition within_budget {A} (st : State) (r : Completion A) (st' : State)
    : Prop :=
  match r with
  | Normal _ =>
      length (heap st') + size (constructible st')
      ≤ length (heap st) + size (constructible st)
  | Throw _ => length (heap st') ≤ length (heap st) + size (constructible st)
  end.

(** [wired_at st t v k]: property [k] of the object [v] is what the records
    of [t] say it is, read against the registry of [st]: the cached instance
    of the dependency of the last record naming [k], or nothing when no
    record names [k]. *)
Definition wired_at (st : State) (t : Constructable) (v : Ref)
    (k : PropertyKey) : Prop :=
  match last (filter (λ inj, key inj = k) (allInjections (injections st) t)) with
  | Some inj =>
      ∃ d w, dependency inj = Some d ∧ cached st d = Some w
             ∧ propOf st v k = Some w
  | None => propOf st v k = None
  end.

(** Every cached instance is an object of the heap whose properties are
    wired to the registry. *)
Definition wired (st : State) : Prop :=
  ∀ t v, cached st t = Some v →
         v < length (heap st) ∧ ∀ k, wired_at st t v k.

(** A base class and a subclass that declare the same property. *)
Definition ServiceOne : Constructable := Class 17 "ServiceOne".
Definition ServiceTwo : Constructable := Class 18 "ServiceTwo".
Definition ShadowBase : Constructable := Class 19 "Base".
Definition ShadowDerived : Constructable := Extends 20 "Derived" ShadowBase.

Definition shadow_program : list Op :=
  [ OpInjectable ServiceOne; OpInjectable ServiceTwo;
    OpInject (Some ServiceOne) ShadowBase (inl "dep");
    OpInject (Some ServiceTwo) ShadowDerived (inl "dep");
    OpInjectable ShadowDerived ].

Definition shadow_loaded : State := exec shadow_program initial.

(** ** The loops *)

Section walk_lemmas.
Variable resolve : State → option Constructable → Outcome Ref.
Variable instance : Ref.

Lemma injectAll_app l1 l2 st :
  injectAll resolve instance (l1 ++ l2) st =
  match injectAll resolve instance l1 st with
  | Some (Normal _, st1) => injectAll resolve instance l2 st1
  | other => other
  end.
Proof.
  revert st. induction l1 as [|inj l1 IH]; intros st; simpl; [done|].
  destruct (resolve st (dependency inj)) as [[[v|e] st1]|]; auto.
Qed.

(** A property of states kept by [defineProperty] and by every nested
    resolution is kept by the loops. *)
Section invariant.
Variable I : State → Prop.
Hypothesis I_defineProperty :
  ∀ st k v, I st → I (defineProperty instance k v st).
Hypothesis I_resolve :
  ∀ st d r st', I st → resolve st d = Some (r, st') → I st'.

Lemma injectAll_inv l st r st' :
  I st → injectAll resolve instance l st = Some (r, st') → I st'.
Proof.
  revert st. induction l as [|inj l IH]; intros st HI; simpl.
  - by intros [= _ <-].
  - destruct (resolve st (dependency inj)) as [[[v|e] st1]|] eqn:E; [| |done].
    + apply IH. eauto.
    + intros [= _ <-]. eauto.
Qed.

Lemma walkChain_inv c st r st' :
  I st → walkChain resolve instance c st = Some (r, st') → I st'.
Proof.
  revert st. induction c as [i n|i n p IH]; intros st HI; simpl;
    destruct (injectAll _ _ _ st) as [[[u|e] st1]|] eqn:E;
    try done; try (intros [= _ <-]); eauto using injectAll_inv.
Qed.

(** If moreover every nested resolution answers, so do the loops. *)
Hypothesis resolve_total : ∀ st d, I st → is_Some (resolve st d).

Lemma injectAll_total l st :
  I st → is_Some (injectAll resolve instance l st).
Proof.
  revert st. induction l as [|inj l IH]; intros st HI; simpl; [by eexists|].
  destruct (resolve_total st (dependency inj) HI) as [[[v|e] st1] E];
    rewrite E; [|by eexists].
  apply IH. eauto.
Qed.

Lemma walkChain_total c st :
  I st → is_Some (walkChain resolve instance c st).
Proof.
  revert st. induction c as [i n|i n p IH]; intros st HI; simpl;
    match goal with
    | |- context [injectAll _ _ ?l st] =>
        destruct (injectAll_total l st HI) as [[[u|e] st1] E]
    end; rewrite E; try by eexists.
  apply IH. eauto using injectAll_inv.
Qed.
End invariant.

(** The loops raise only what a nested resolution raised. *)
Lemma injectAll_throws (P : Error → Prop) l st e st' :
  (∀ st d e st', resolve st d = Some (Throw e, st') → P e) →
  injectAll resolve instance l st = Some (Throw e, st') → P e.
Proof.
  intros HP. revert st. induction l as [|inj l IH]; intros st; simpl; [done|].
  destruct (resolve st (dependency inj)) as [[[v|e1] st1]|] eqn:E; [|naive_solver|done].
  apply IH.
Qed.

Lemma walkChain_throws (P : Error → Prop) c st e st' :
  (∀ st d e st', resolve st d = Some (Throw e, st') → P e) →
  walkChain resolve instance c st = Some (Throw e, st') → P e.
Proof.
  intros HP. revert st. induction c as [i n|i n p IH]; intros st; simpl;
    destruct (injectAll _ _ _ st) as [[[u|e1] st1]|] eqn:E; try done.
  - intros [= <- _]. by eapply injectAll_throws.
  - apply IH.
  - intros [= <- _]. by eapply injectAll_throws.
Qed.
End walk_lemmas.

(** ** One frame of [get] *)

Lemma get_unfold fuel st type :
  get fuel st type =
  match gate st type with
  | Some r => Some (r, st)
  | None =>
      match type, fuel with
      | Some t, S fuel =>
          leave t (length (heap st))
            (walkChain (get fuel) (length (heap st)) t (entered t st))
      | _, _ => None
      end
  end.
Proof.
  destruct type as [t|]; [|by destruct fuel].
  destruct fuel; simpl; destruct (registry st !! t) as [[[v|]]|]; simpl;
    try done; by case_decide.
Qed.

Lemma get_gate fuel st type r :
  gate st type = Some r → get fuel st type = Some (r, st).
Proof. intros G. by rewrite get_unfold, G. Qed.

Lemma gate_None st type :
  gate st type = None ↔
  ∃ t, type = Some t ∧ is_Some (registry st !! t) ∧ cached st t = None
       ∧ t ∉ resolving st.
Proof.
  unfold gate, cached. split.
  - destruct type as [t|]; [|done].
    destruct (registry st !! t) as [[[v|]]|] eqn:E; simpl; try done.
    case_decide; [done|]. intros _. exists t. rewrite E. eauto.
  - intros (t & -> & [[[v|]] ->] & Hc & Hr); simpl in *; [done|].
    by rewrite decide_False.
Qed.

Lemma gate_Normal st type v :
  gate st type = Some (Normal v) ↔ ∃ t, type = Some t ∧ cached st t = Some v.
Proof.
  unfold gate, cached. split.
  - destruct type as [t|]; [|done].
    destruct (registry st !! t) as [[[w|]]|] eqn:E; simpl; try done.
    + intros [= ->]. exists t. by rewrite E.
    + by case_decide.
  - intros (t & -> & Hc).
    destruct (registry st !! t) as [[[w|]]|]; simpl in *; by simplify_eq.
Qed.

Lemma get_cached fuel st t v :
  cached st t = Some v → get fuel st (Some t) = Some (Normal v, st).
Proof. intros Hc. apply get_gate, gate_Normal. eauto. Qed.

Lemma gate_Throw st type e :
  gate st type = Some (Throw e) →
  container_error e ∧
  match type with Some t => cached st t = None | None => True end.
Proof.
  unfold gate, cached, container_error. destruct type as [t|].
  - destruct (registry st !! t) as [[[w|]]|]; simpl; try done.
    + case_decide; [|done]. intros [= <-]. eauto.
    + intros [= <-]. eauto.
  - intros [= <-]. eauto.
Qed.

(** ** What a call may change *)

#[global] Instance steady_preorder : PreOrder steady.
Proof.
  split.
  - intros st. split; auto.
  - intros st1 st2 st3 [Ei Er Ed Hc Hp Hl Hf] [Ei' Er' Ed' Hc' Hp' Hl' Hf'].
    split; try congruence; eauto with lia.
    + intros t Ht Hn. apply Hp'; [congruence|auto].
    + intros t v Hv. destruct (Hf' t v Hv) as [Hv'|?]; [|lia].
      destruct (Hf t v Hv'); [auto|lia].
Qed.

Lemma steady_defineProperty inst k v st : steady st (defineProperty inst k v st).
Proof.
  split; simpl; auto.
  all: rewrite ?length_alter; auto.
Qed.

Lemma cached_cache t type inst st :
  cached (cache type inst st) t =
  if decide (type = t) then Some inst else cached st t.
Proof.
  unfold cached, cache; simpl. rewrite lookup_insert. by case_decide.
Qed.

Lemma cached_resolving_delete t type st :
  cached (resolving_delete type st) t = cached st t.
Proof. done. Qed.

Lemma cached_entered t type st : cached (entered type st) t = cached st t.
Proof. done. Qed.

Lemma resolving_entered type st :
  resolving (entered type st) = {[type]} ∪ resolving st.
Proof. done. Qed.

Lemma heap_entered type st : heap (entered type st) = heap st ++ [mkObj type ∅].
Proof. done. Qed.

(** The state a frame leaves, from the state its walk left. *)
Lemma steady_leave type st st3 (cacheIt : bool) :
  is_Some (registry st !! type) → cached st type = None →
  type ∉ resolving st →
  steady (entered type st) st3 →
  steady st (resolving_delete type
               (if cacheIt then cache type (length (heap st)) st3 else st3)).
Proof.
  intros Hreg Hc Hr [Ei Er Ed Hv Hp Hl Hf].
  rewrite resolving_entered in Er. rewrite heap_entered, length_app in Hl, Hf.
  simpl in Hl, Hf.
  assert (Hdel : ({[type]} ∪ resolving st) ∖ {[type]} = resolving st).
  { apply set_eq. intros x.
    rewrite elem_of_difference, elem_of_union, elem_of_singleton.
    split; [by intros [[->|?] ?]|]. intros Hx. split; [by right|by intros ->]. }
  split.
  - by destruct cacheIt.
  - destruct cacheIt; simpl; by rewrite Er.
  - destruct cacheIt; simpl; [|done].
    rewrite dom_insert_L, Ed. apply elem_of_dom in Hreg.
    by apply subseteq_union_1_L, singleton_subseteq_l.
  - intros t v Ht. rewrite cached_resolving_delete.
    assert (cached st3 t = Some v) by by apply Hv.
    destruct cacheIt; [|done].
    rewrite cached_cache. case_decide; [congruence|done].
  - intros t Ht Hn. rewrite cached_resolving_delete.
    assert (cached st3 t = None).
    { apply Hp; [rewrite resolving_entered; by apply elem_of_union_r|done]. }
    destruct cacheIt; [|done].
    rewrite cached_cache. case_decide; [congruence|done].
  - destruct cacheIt; simpl; lia.
  - intros t v. rewrite cached_resolving_delete. destruct cacheIt; simpl.
    + rewrite cached_cache. case_decide.
      * intros [= <-]. right. lia.
      * intros Ht. destruct (Hf t v Ht); [auto|lia].
    + intros Ht. destruct (Hf t v Ht); [auto|lia].
Qed.

Lemma get_steady fuel st type r st' :
  get fuel st type = Some (r, st') → steady st st'.
Proof.
  revert st type r st'. induction fuel as [|fuel IH]; intros st type r st';
    rewrite get_unfold; destruct (gate st type) as [r0|] eqn:G;
    try (by intros [= _ <-]); destruct type as [t|]; try done.
  apply gate_None in G as (? & [= <-] & Hreg & Hc & Hr).
  destruct (walkChain _ _ _ _) as [[[u|e] st3]|] eqn:W; simpl; [| |done].
  all: intros [= _ <-].
  all: eapply (walkChain_inv _ _ (steady (entered t st))) in W;
    [|intros; etrans; eauto using steady_defineProperty
     |intros; etrans; eauto
     |done].
  - by apply (steady_leave t st st3 true).
  - by apply (steady_leave t st st3 false).
Qed.

Lemma injectAll_steady fuel inst recs st r st' :
  injectAll (get fuel) inst recs st = Some (r, st') → steady st st'.
Proof.
  intros W. eapply (injectAll_inv _ _ (steady st)) in W; [done| | |done].
  - intros; etrans; eauto using steady_defineProperty.
  - intros; etrans; eauto using get_steady.
Qed.

Lemma walkChain_steady fuel inst c st r st' :
  walkChain (get fuel) inst c st = Some (r, st') → steady st st'.
Proof.
  intros W. eapply (walkChain_inv _ _ (steady st)) in W; [done| | |done].
  - intros; etrans; eauto using steady_defineProperty.
  - intros; etrans; eauto using get_steady.
Qed.

(** The type of a frame has no cached instance while its walk runs. *)
Lemma walk_pending t st st3 :
  cached st t = None → steady (entered t st) st3 → cached st3 t = None.
Proof.
  intros Hc Hs. apply (steady_pending _ _ Hs); [|done].
  rewrite resolving_entered. apply elem_of_union_l. by apply elem_of_singleton.
Qed.

(** A call writes only to objects it has created itself. *)
Lemma get_untouched fuel st type r st' :
  get fuel st type = Some (r, st') →
  untouched_below (length (heap st)) st st'.
Proof.
  revert st type r st'. induction fuel as [|fuel IH]; intros st type r st';
    rewrite get_unfold; destruct (gate st type) as [r0|] eqn:G;
    try (by intros [= _ <-]); destruct type as [t|]; try done.
  set (inst := length (heap st)).
  pose (I := λ s : State, inst < length (heap s) ∧ untouched_below inst st s).
  assert (I (entered t st)) as H0.
  { split; [rewrite heap_entered, length_app; simpl; lia|].
    intros i Hi. rewrite heap_entered. by apply lookup_app_l. }
  intros H. assert (∃ u st3,
    walkChain (get fuel) inst t (entered t st) = Some (u, st3)
    ∧ heap st' = heap st3) as (u & st3 & W & E).
  { destruct (walkChain _ _ _ _) as [[[u|e] st3]|]; simpl in H; simplify_eq;
      eauto. }
  unfold untouched_below. rewrite E.
  eapply (walkChain_inv _ _ I) in W; [by destruct W| | |done].
  - intros s k v [Hl Hu]. split; simpl; [by rewrite length_alter|].
    intros i Hi. simpl. rewrite list_lookup_alter_ne by lia. by apply Hu.
  - intros s d r' s' [Hl Hu] Hget. split.
    + apply get_steady in Hget as []. lia.
    + intros i Hi. rewrite (IH _ _ _ _ Hget) by lia. by apply Hu.
Qed.

(** A call raises nothing but the container's three errors. *)
Lemma get_throws fuel st type e st' :
  get fuel st type = Some (Throw e, st') → container_error e.
Proof.
  revert st type e st'. induction fuel as [|fuel IH]; intros st type e st';
    rewrite get_unfold; destruct (gate st type) as [r0|] eqn:G;
    try (intros [= -> <-]; by apply gate_Throw in G as []);
    destruct type as [t|]; try done.
  destruct (walkChain _ _ _ _) as [[[u|e'] st3]|] eqn:W; simpl; try done.
  intros [= <- _]. eapply walkChain_throws in W; [done|]. eauto.
Qed.

(** ** The recursion bound *)

(** More fuel does not change an answer. *)
Lemma injectAll_mono (f g : State → option Constructable → Outcome Ref) inst l :
  (∀ st d x, f st d = Some x → g st d = Some x) →
  ∀ st x, injectAll f inst l st = Some x → injectAll g inst l st = Some x.
Proof.
  intros Hfg. induction l as [|inj l IH]; intros st x; simpl; [done|].
  destruct (f st (dependency inj)) as [[[v|e] st1]|] eqn:E; [| |done];
    rewrite (Hfg _ _ _ E); auto.
Qed.

Lemma walkChain_mono (f g : State → option Constructable → Outcome Ref) inst c :
  (∀ st d x, f st d = Some x → g st d = Some x) →
  ∀ st x, walkChain f inst c st = Some x → walkChain g inst c st = Some x.
Proof.
  intros Hfg. induction c as [i n|i n p IH]; intros st x; simpl;
    destruct (injectAll f _ _ st) as [[[u|e] st1]|] eqn:E; try done;
    rewrite (injectAll_mono f g _ _ Hfg _ _ E); auto.
Qed.

Lemma get_fuel_S fuel st type x :
  get fuel st type = Some x → get (S fuel) st type = Some x.
Proof.
  revert st type x. induction fuel as [|fuel IH]; intros st type x;
    rewrite !(get_unfold _ st type); destruct (gate st type); try done;
    destruct type as [t|]; try done.
  destruct (walkChain (get fuel) _ _ _) as [o|] eqn:W; [|done].
  by rewrite (walkChain_mono _ (get (S fuel)) _ _ IH _ _ W).
Qed.

Lemma get_fuel_le fuel fuel' st type x :
  fuel ≤ fuel' → get fuel st type = Some x → get fuel' st type = Some x.
Proof. induction 1; auto using get_fuel_S. Qed.

Lemma pending_steady st st' : steady st st' → pending st' = pending st.
Proof. intros []. unfold pending. congruence. Qed.

Lemma pending_entered t st :
  is_Some (registry st !! t) → t ∉ resolving st →
  S (pending (entered t st)) = pending st.
Proof.
  intros Hreg%elem_of_dom Hr. unfold pending.
  rewrite resolving_entered. change (registry (entered t st)) with (registry st).
  assert (dom (registry st) ∖ resolving st =
          {[t]} ∪ dom (registry st) ∖ ({[t]} ∪ resolving st)) as ->.
  { apply set_eq. intros x. rewrite !elem_of_union, !elem_of_difference,
      elem_of_union, elem_of_singleton.
    destruct (decide (x = t)) as [->|]; tauto. }
  rewrite (size_union (C:=gset Constructable) {[t]});
    [by rewrite size_singleton|].
  intros x. rewrite elem_of_singleton, elem_of_difference, elem_of_union,
    elem_of_singleton. tauto.
Qed.

(** With a bound of at least [pending st], a call always answers. *)
Lemma get_total fuel st type : pending st ≤ fuel → is_Some (get fuel st type).
Proof.
  revert st type. induction fuel as [|fuel IH]; intros st type Hfuel;
    rewrite get_unfold; destruct (gate st type) as [r0|] eqn:G;
    try by eexists.
  - apply gate_None in G as (t & -> & Hreg & _ & Hr).
    apply pending_entered in Hreg; [lia|done].
  - apply gate_None in G as (t & -> & Hreg & _ & Hr).
    pose proof (pending_entered t st Hreg Hr) as Hp.
    destruct (walkChain_total (get fuel) (length (heap st))
                (steady (entered t st))) with (c := t) (st := entered t st)
      as [[[u|e] st3] W]; [| | |done|rewrite W; by eexists..].
    + intros; etrans; eauto using steady_defineProperty.
    + intros; etrans; eauto using get_steady.
    + intros s d Hs. apply IH. rewrite (pending_steady _ _ Hs). lia.
Qed.

(** ** The walk as one loop *)

Lemma walkChain_flat resolve inst c st :
  (∀ st d r st', resolve st d = Some (r, st') → injections st' = injections st) →
  walkChain resolve inst c st =
  injectAll resolve inst (allInjections (injections st) c) st.
Proof.
  intros Hinj. unfold allInjections.
  revert st. induction c as [i n|i n p IH]; intros st; simpl.
  - rewrite app_nil_r.
    by destruct (injectAll _ _ _ st) as [[[[]|e] st1]|].
  - rewrite injectAll_app.
    destruct (injectAll _ _ _ st) as [[[[]|e] st1]|] eqn:E; try done.
    rewrite IH. assert (injections st1 = injections st) as ->; [|done].
    eapply (injectAll_inv _ _ (λ s, injections s = injections st)) in E;
      [done|done| |done].
    intros s d r s' <-. apply Hinj.
Qed.

Lemma get_flat fuel st t :
  gate st (Some t) = None →
  get (S fuel) st (Some t) =
  leave t (length (heap st))
    (injectAll (get fuel) (length (heap st))
       (allInjections (injections st) t) (entered t st)).
Proof.
  intros G. rewrite get_unfold, G. f_equal.
  rewrite walkChain_flat; [done|].
  intros s d r s' Hget. by apply get_steady in Hget as [].
Qed.

(** The two ways a call ends: at one of the early exits, or at the end of
    a frame. *)
Lemma get_inv fuel st type r st' :
  get fuel st type = Some (r, st') →
  (gate st type = Some r ∧ st' = st)
  ∨ ∃ t fuel' walked,
      type = Some t ∧ fuel = S fuel' ∧ gate st (Some t) = None
      ∧ injectAll (get fuel') (length (heap st))
          (allInjections (injections st) t) (entered t st) = Some walked
      ∧ leave t (length (heap st)) (Some walked) = Some (r, st').
Proof.
  destruct (gate st type) as [r0|] eqn:G.
  - rewrite get_unfold, G. intros [= -> <-]. by left.
  - destruct type as [t|], fuel as [|fuel];
      try (rewrite get_unfold, G; discriminate).
    rewrite get_flat by done. intros L. right.
    destruct (injectAll _ _ _ _) as [walked|] eqn:W; [|done].
    by exists t, fuel, walked.
Qed.

(** ** Nested calls *)

Lemma calls_resolving c1 c2 :
  calls c1 c2 →
  ∃ t, call_type c1 = Some t ∧ (t ∉ resolving (call_state c1))
       ∧ is_Some (registry (call_state c1) !! t)
       ∧ resolving (call_state c2) = {[t]} ∪ resolving (call_state c1)
       ∧ dom (registry (call_state c2)) = dom (registry (call_state c1)).
Proof.
  intros [fuel st t pre inj post st1 G _ W]; simpl.
  apply gate_None in G as (? & [= <-] & Hreg & Hc & Hr).
  apply injectAll_steady in W as [_ Er Ed _ _ _ _].
  exists t. by rewrite Er, Ed.
Qed.

Lemma calls_pending c1 c2 :
  calls c1 c2 → pending (call_state c2) < pending (call_state c1).
Proof.
  intros [fuel st t pre inj post st1 G _ W]; simpl.
  apply gate_None in G as (? & [= <-] & Hreg & Hc & Hr).
  apply injectAll_steady, pending_steady in W.
  pose proof (pending_entered t st Hreg Hr). lia.
Qed.

Lemma calls_stack_uncached c1 c2 :
  calls c1 c2 →
  stack_uncached (call_state c1) → stack_uncached (call_state c2).
Proof.
  intros [fuel st t pre inj post st1 G _ W]; simpl. intros Hst t' Ht'.
  apply gate_None in G as (? & [= <-] & Hreg & Hc & Hr).
  apply injectAll_steady in W as [_ Er _ _ Hp _ _].
  rewrite Er in Ht'. apply Hp; [by rewrite resolving_entered|].
  rewrite cached_entered.
  apply elem_of_union in Ht' as [->%elem_of_singleton|Ht']; auto.
Qed.

(** How the caller's frame goes on after the nested call has ended. *)
Lemma calls_run fuel st t pre inj post st1 :
  gate st (Some t) = None →
  allInjections (injections st) t = pre ++ inj :: post →
  injectAll (get fuel) (length (heap st)) pre (entered t st)
    = Some (Normal (), st1) →
  get (S fuel) st (Some t) =
  match get fuel st1 (dependency inj) with
  | None => None
  | Some (Throw e, s) => Some (Throw e, resolving_delete t s)
  | Some (Normal v, s) =>
      leave t (length (heap st))
        (injectAll (get fuel) (length (heap st)) post
           (defineProperty (length (heap st)) (key inj) v s))
  end.
Proof.
  intros G E W. rewrite get_flat, E, injectAll_app, W by done. simpl.
  by destruct (get fuel st1 (dependency inj)) as [[[v|e] s]|].
Qed.

(** An error raised by the nested call is the error of the caller, which
    caches nothing on its way out. *)
Lemma calls_throw c1 c2 e s :
  calls c1 c2 → run c2 = Some (Throw e, s) →
  ∃ st', run c1 = Some (Throw e, st') ∧ registry st' = registry s.
Proof.
  intros [fuel st t pre inj post st1 G E W]; unfold run; cbn [call_fuel call_state call_type]. intros R.
  rewrite (calls_run _ _ _ _ _ _ _ G E W), R. eauto.
Qed.

(** If the caller answers, the nested call has answered, and what the
    registry held when it ended is still there when the caller ends. *)
Lemma calls_answer c1 c2 r1 st1' :
  calls c1 c2 → run c1 = Some (r1, st1') →
  ∃ r2 s2, run c2 = Some (r2, s2)
           ∧ ∀ t v, cached s2 t = Some v → cached st1' t = Some v.
Proof.
  intros [fuel st t pre inj post st1 G E W]; unfold run; cbn [call_fuel call_state call_type].
  rewrite (calls_run _ _ _ _ _ _ _ G E W).
  destruct (get fuel st1 (dependency inj)) as [[[v|e] s]|] eqn:R; [| |done].
  - intros L. exists (Normal v), s. split; [done|]. intros t' v' Hc'.
    apply gate_None in G as (? & [= <-] & Hreg & Hc & Hr).
    assert (steady (entered t st) s) as Hs.
    { etrans; [by eapply injectAll_steady|]. by eapply get_steady. }
    assert (t ≠ t') as Hne.
    { intros <-. rewrite (steady_pending _ _ Hs t) in Hc'; [done| |done].
      rewrite resolving_entered. apply elem_of_union_l. by apply elem_of_singleton. }
    set (s' := defineProperty (length (heap st)) (key inj) v s) in *.
    assert (∃ u s3, injectAll (get fuel) (length (heap st)) post s' = Some (u, s3)
                    ∧ cached st1' t' = cached s3 t') as (u & s3 & W3 & ->).
    { destruct (injectAll _ _ post _) as [[[u|e] s3]|]; simpl in L;
        simplify_eq; eexists _, _; (split; [done|]).
      - by rewrite cached_resolving_delete, cached_cache, decide_False.
      - done. }
    by apply (steady_cached _ _ (injectAll_steady _ _ _ _ _ _ W3)).
  - intros [= <- <-]. exists (Throw e), s. split; [done|].
    by intros t' v' Hc'.
Qed.

(** The same through any depth of nesting. *)
Lemma nested_throw c1 c2 e s :
  rtc calls c1 c2 → run c2 = Some (Throw e, s) →
  ∃ st', run c1 = Some (Throw e, st') ∧ registry st' = registry s.
Proof.
  induction 1 as [c|c1 c c2 H1 _ IH]; intros R; [by eauto|].
  destruct (IH R) as (st & Rc & E).
  destruct (calls_throw _ _ _ _ H1 Rc) as (st' & R1 & E').
  exists st'. split; [done|congruence].
Qed.

Lemma nested_answer c1 c2 r1 st1' :
  rtc calls c1 c2 → run c1 = Some (r1, st1') →
  ∃ r2 s2, run c2 = Some (r2, s2)
           ∧ ∀ t v, cached s2 t = Some v → cached st1' t = Some v.
Proof.
  intros H. revert r1 st1'.
  induction H as [c|c1 c c2 H1 _ IH]; intros r1 st1' R; [by eauto|].
  destruct (calls_answer _ _ _ _ H1 R) as (r & s & Rc & Hc).
  destruct (IH _ _ Rc) as (r2 & s2 & R2 & Hc2). eauto 10.
Qed.

Lemma nested_stack_uncached c1 c2 :
  rtc calls c1 c2 →
  stack_uncached (call_state c1) → stack_uncached (call_state c2).
Proof. induction 1; eauto using calls_stack_uncached. Qed.

(** ** What a returning call has done *)

(** The instance a call returns is the one the registry holds afterwards. *)
Lemma get_Normal_cached fuel st type v st' :
  get fuel st type = Some (Normal v, st') →
  ∃ t, type = Some t ∧ cached st' t = Some v.
Proof.
  rewrite get_unfold. destruct (gate st type) as [r0|] eqn:G.
  - intros [= -> <-]. by apply gate_Normal in G.
  - destruct type as [t|], fuel as [|fuel]; try done.
    destruct (walkChain _ _ _ _) as [[[u|e] st3]|]; simpl; try done.
    intros [= <- <-]. exists t. split; [done|].
    by rewrite cached_resolving_delete, cached_cache, decide_True.
Qed.

(** A call that throws leaves no instance cached for its argument. *)
Lemma get_Throw_uncached fuel st t e st' :
  get fuel st (Some t) = Some (Throw e, st') → cached st' t = None.
Proof.
  rewrite get_unfold. destruct (gate st (Some t)) as [r0|] eqn:G.
  - intros [= -> <-]. by apply gate_Throw in G as [_ ?].
  - destruct fuel as [|fuel]; [done|].
    apply gate_None in G as (? & [= <-] & Hreg & Hc & Hr).
    destruct (walkChain _ _ _ _) as [[[u|e'] st3]|] eqn:W; simpl; try done.
    intros [= _ <-]. rewrite cached_resolving_delete.
    eauto using walk_pending, walkChain_steady.
Qed.

Lemma propOf_defineProperty st inst k v k' :
  inst < length (heap st) →
  propOf (defineProperty inst k v st) inst k' =
  if decide (k = k') then Some v else propOf st inst k'.
Proof.
  intros Hlt. unfold propOf, defineProperty; simpl.
  rewrite list_lookup_alter_eq.
  destruct (heap st !! inst) as [o|] eqn:E; simpl.
  - rewrite lookup_insert. by case_decide.
  - apply lookup_ge_None in E. lia.
Qed.

(** Later records leave a property alone unless they name it. *)
Lemma injectAll_other_keys fuel inst k recs st r st' :
  inst < length (heap st) →
  Forall (λ j, key j ≠ k) recs →
  injectAll (get fuel) inst recs st = Some (r, st') →
  inst < length (heap st') ∧ propOf st' inst k = propOf st inst k.
Proof.
  intros Hlt Hk. revert st Hlt.
  induction Hk as [|j recs Hj Hk IH]; intros st Hlt; simpl.
  - by intros [= _ <-].
  - destruct (get fuel st (dependency j)) as [[[v|e] s]|] eqn:R; [| |done].
    + pose proof (steady_length _ _ (get_steady _ _ _ _ _ R)).
      pose proof (get_untouched _ _ _ _ _ R inst Hlt) as Hu.
      intros W. apply IH in W; [|simpl; rewrite length_alter; lia].
      destruct W as [? ->]. split; [done|].
      rewrite propOf_defineProperty, decide_False by (done || lia).
      unfold propOf. by rewrite Hu.
    + intros [= _ <-].
      pose proof (steady_length _ _ (get_steady _ _ _ _ _ R)).
      split; [lia|]. unfold propOf.
      by rewrite (get_untouched _ _ _ _ _ R inst Hlt).
Qed.

(** After the loop has run to its end, the property named by a record holds
    the cached instance of the record's dependency, unless a later record
    names the same property. *)
Lemma injectAll_assigns fuel inst recs st st' pre inj post :
  inst < length (heap st) →
  injectAll (get fuel) inst recs st = Some (Normal (), st') →
  recs = pre ++ inj :: post →
  Forall (λ j, key j ≠ key inj) post →
  ∃ d w, dependency inj = Some d ∧ cached st' d = Some w
         ∧ propOf st' inst (key inj) = Some w.
Proof.
  intros Hlt W -> Hpost. revert st Hlt W.
  induction pre as [|j pre IH]; intros st Hlt; simpl.
  - destruct (get fuel st (dependency inj)) as [[[v|e] s]|] eqn:R; [|done|done].
    intros W.
    destruct (get_Normal_cached _ _ _ _ _ R) as (d & Hd & Hc).
    pose proof (steady_length _ _ (get_steady _ _ _ _ _ R)).
    exists d, v. split; [done|]. split.
    + by apply (steady_cached _ _ (injectAll_steady _ _ _ _ _ _ W)).
    + eapply injectAll_other_keys in W as [_ ->];
        [|simpl; rewrite length_alter; lia|done].
      rewrite propOf_defineProperty, decide_True by (done || lia). done.
  - destruct (get fuel st (dependency j)) as [[[v|e] s]|] eqn:R; [|done|done].
    pose proof (steady_length _ _ (get_steady _ _ _ _ _ R)).
    apply IH. simpl. rewrite length_alter. lia.
Qed.

(** ** Programs *)

Lemma exec_app ops1 ops2 st : exec (ops1 ++ ops2) st = exec ops2 (exec ops1 st).
Proof. apply foldl_app. Qed.

Lemma pending_le_size st : pending st ≤ size (registry st).
Proof.
  unfold pending. rewrite <- size_dom.
  apply subseteq_size. intros x. rewrite elem_of_difference. tauto.
Qed.

Lemma Container_get_total st type : is_Some (Container_get st type).
Proof. apply get_total, pending_le_size. Qed.

Lemma step_resolving st op : resolving (step st op) = resolving st.
Proof.
  destruct op as [target|d c k|type|]; simpl; try done.
  - unfold Injectable. by case_decide.
  - destruct (Container_get st type) as [[r st']|] eqn:E; [|done].
    by apply get_steady in E as [].
Qed.

Lemma exec_resolving ops st : resolving (exec ops st) = resolving st.
Proof.
  revert st. induction ops as [|op ops IH]; intros st; simpl; [done|].
  by rewrite IH, step_resolving.
Qed.

(** ** Resolvable types are resolved *)

Lemma resolvable_ext st st' depth t :
  injections st' = injections st →
  dom (registry st') = dom (registry st) →
  resolvable st' depth t ↔ resolvable st depth t.
Proof.
  intros Ei Ed. revert t. induction depth as [|depth IH]; intros t; simpl; [done|].
  rewrite Ei, <- !elem_of_dom, Ed. apply and_iff_compat_l.
  apply Forall_proper; [|done]. intros inj; cbn beta.
  destruct (dependency inj); simpl; [apply IH|done].
Qed.

Lemma resolvable_steady st st' depth t :
  steady st st' → resolvable st' depth t ↔ resolvable st depth t.
Proof. intros []. by apply resolvable_ext. Qed.

Lemma resolvable_S st depth t :
  resolvable st depth t → resolvable st (S depth) t.
Proof.
  revert t. induction depth as [|depth IH]; intros t; [done|].
  intros [Hreg Hall]. split; [done|].
  eapply Forall_impl; [done|]. intros inj; cbn beta.
  destruct (dependency inj); cbn [from_option]; auto.
Qed.

Lemma resolvable_le st depth depth' t :
  depth ≤ depth' → resolvable st depth t → resolvable st depth' t.
Proof. induction 1; auto using resolvable_S. Qed.

(** A common depth for finitely many resolvable dependencies. *)
Lemma resolvable_common st (recs : list Injection) :
  Forall (λ inj, ∃ d depth, dependency inj = Some d ∧ resolvable st depth d) recs →
  ∃ depth,
    Forall (λ inj, from_option (resolvable st depth) False (dependency inj)) recs.
Proof.
  induction 1 as [|inj recs (d & k & Hd & Hk) _ [k' IH]]; [by exists 0|].
  exists (k `max` k'). constructor.
  - rewrite Hd; simpl. eapply resolvable_le; [|done]. lia.
  - eapply Forall_impl; [done|]. intros inj'; cbn beta.
    destruct (dependency inj'); simpl; [|done].
    apply resolvable_le. lia.
Qed.

(** When the loop runs to its end, every dependency it met is cached. *)
Lemma injectAll_all_cached fuel inst recs st st' :
  injectAll (get fuel) inst recs st = Some (Normal (), st') →
  Forall (λ inj, ∃ d v, dependency inj = Some d ∧ cached st' d = Some v) recs.
Proof.
  revert st. induction recs as [|inj recs IH]; intros st; simpl; [done|].
  destruct (get fuel st (dependency inj)) as [[[v|e] s]|] eqn:R; [|done|done].
  intros W. constructor; [|by eapply IH].
  destruct (get_Normal_cached _ _ _ _ _ R) as (d & Hd & Hc).
  exists d, v. split; [done|].
  by apply (steady_cached _ _ (injectAll_steady _ _ _ _ _ _ W)).
Qed.

Lemma cache_sound_ext st st' :
  injections st' = injections st →
  dom (registry st') = dom (registry st) →
  (∀ t, cached st' t = cached st t) →
  cache_sound st → cache_sound st'.
Proof.
  intros Ei Ed Hc Hst t v. rewrite Hc. intros [k Hk]%Hst.
  exists k. by apply (resolvable_ext st).
Qed.

Lemma get_cache_sound fuel st type r st' :
  cache_sound st → get fuel st type = Some (r, st') → cache_sound st'.
Proof.
  revert st type r st'. induction fuel as [|fuel IH];
    intros st type r st' Hst Hget;
    pose proof (get_steady _ _ _ _ _ Hget) as Hsteady;
    apply get_inv in Hget
      as [[_ ->]|(t & fuel' & [u st3] & -> & [= <-] & G & W & L)]; try done.
  apply gate_None in G as (? & [= <-] & Hreg & Hc & Hr).
  set (I := λ s, steady (entered t st) s ∧ cache_sound s).
  assert (I (entered t st)) as H0 by (split; [done|by apply (cache_sound_ext st)]).
  assert (∀ s k v, I s → I (defineProperty (length (heap st)) k v s)) as Hdef.
  { intros s k v [Hs Hsound]. split; [etrans; eauto using steady_defineProperty|].
    by apply (cache_sound_ext s). }
  assert (∀ s d r s', I s → get fuel s d = Some (r, s') → I s') as Hres.
  { intros s d r' s' [Hs Hsound] R. split; [etrans; eauto using get_steady|].
    eauto. }
  pose proof (injectAll_inv _ _ I Hdef Hres _ _ _ _ H0 W) as [Hs3 Hsound3].
  pose proof (steady_injections _ _ Hs3) as Ei3.
  pose proof (steady_dom _ _ Hs3) as Ed3.
  change (injections (entered t st)) with (injections st) in Ei3.
  change (registry (entered t st)) with (registry st) in Ed3.
  assert (∀ k t', resolvable st3 k t' → resolvable st' k t') as Hto.
  { intros k t' Hk. apply (resolvable_steady st); [done|].
    by apply (resolvable_ext st) in Hk. }
  destruct u as [[]|e]; simpl in L; injection L as <- <-.
  - intros t' v'. rewrite cached_resolving_delete, cached_cache.
    case_decide as Ht.
    + subst t'. intros _.
      apply injectAll_all_cached in W.
      destruct (resolvable_common st3 (allInjections (injections st) t))
        as [k Hk].
      { eapply Forall_impl; [done|]. intros inj (d & v & Hd & Hv).
        destruct (Hsound3 _ _ Hv) as [k Hk]. eauto. }
      exists (S k). apply Hto. split.
      * rewrite <- elem_of_dom, Ed3. by apply elem_of_dom.
      * by rewrite Ei3.
    + intros [k Hk]%Hsound3. eauto.
  - intros t' v'. rewrite cached_resolving_delete.
    intros [k Hk]%Hsound3. eauto.
Qed.

(** The loop runs to its end when each nested resolution returns. *)
Lemma injectAll_succeeds resolve inst (I : State → Prop) recs st :
  (∀ st k v, I st → I (defineProperty inst k v st)) →
  (∀ st d r st', I st → resolve st d = Some (r, st') → I st') →
  (∀ s inj, I s → inj ∈ recs →
     ∃ v s', resolve s (dependency inj) = Some (Normal v, s')) →
  I st → ∃ st', injectAll resolve inst recs st = Some (Normal (), st').
Proof.
  intros Hdef Hres. revert st.
  induction recs as [|inj recs IH]; intros st Hok HI; simpl; [by eauto|].
  destruct (Hok st inj HI) as (v & s & R); [by left|]. rewrite R.
  apply IH; [|by eauto].
  intros s' inj' HI' Hin. apply Hok; [done|by right].
Qed.

(** A resolvable type is resolved, provided nothing as shallow as it is
    being resolved already. *)
Lemma resolvable_get depth fuel st t :
  resolvable st depth t →
  (∀ t', t' ∈ resolving st → ¬ resolvable st depth t') →
  pending st ≤ fuel →
  ∃ v st', get fuel st (Some t) = Some (Normal v, st').
Proof.
  revert fuel st t.
  induction depth as [|depth IH]; intros fuel st t Hres Hstack Hfuel; [done|].
  destruct (decide (resolvable st depth t)) as [Hlow|Hlow].
  { apply (IH fuel st t); [done| |done].
    intros t' Ht' Hk. apply (Hstack t' Ht'). by apply resolvable_S. }
  destruct (cached st t) as [v|] eqn:Hc.
  { exists v, st. by apply get_cached. }
  pose proof Hres as [Hreg Hall].
  assert (t ∉ resolving st) as Hr by (intros Ht; by apply (Hstack t Ht)).
  assert (gate st (Some t) = None) as G by (apply gate_None; eauto).
  pose proof (pending_entered t st Hreg Hr) as Hp.
  destruct fuel as [|fuel]; [lia|].
  rewrite get_flat by done.
  destruct (injectAll_succeeds (get fuel) (length (heap st))
              (steady (entered t st)) (allInjections (injections st) t)
              (entered t st)) as [st3 W]; [| | |done|by rewrite W; simpl; eauto].
  - intros; etrans; eauto using steady_defineProperty.
  - intros; etrans; eauto using get_steady.
  - intros s inj Hs Hin. rewrite Forall_forall in Hall.
    specialize (Hall inj Hin). destruct (dependency inj) as [d|]; [|done].
    simpl in Hall.
    pose proof (steady_injections _ _ Hs) as Ei.
    pose proof (steady_dom _ _ Hs) as Ed.
    pose proof (steady_resolving _ _ Hs) as Er.
    rewrite resolving_entered in Er.
    apply IH.
    + by apply (resolvable_ext st).
    + intros t' Ht'. rewrite (resolvable_ext st) by done.
      rewrite Er in Ht'.
      apply elem_of_union in Ht' as [->%elem_of_singleton|Ht']; [done|].
      intros Hk. apply (Hstack t' Ht'). by apply resolvable_S.
    + rewrite (pending_steady _ _ Hs). lia.
Qed.

(** What programs preserve. *)

Lemma cached_Injectable target st t :
  cached (Injectable target st) t = cached st t.
Proof.
  unfold Injectable, cached. case_decide as H; [done|]. simpl.
  destruct (decide (target = t)) as [->|].
  - rewrite lookup_insert_eq. simpl.
    destruct (registry st !! t) eqn:E; [|done]. destruct H. eauto.
  - by rewrite lookup_insert_ne.
Qed.

(** Only [reset] takes an instance out of the registry. *)
Lemma step_keeps_cached st op t v :
  op ≠ OpReset → cached st t = Some v → cached (step st op) t = Some v.
Proof.
  intros Hop Hc. destruct op as [target|d c k|type|]; simpl; [| | |done].
  - by rewrite cached_Injectable.
  - done.
  - destruct (Container_get st type) as [[r st']|] eqn:E; [|done].
    by apply (steady_cached _ _ (get_steady _ _ _ _ _ E)).
Qed.

Lemma exec_keeps_cached ops st t v :
  Forall (λ op, op ≠ OpReset) ops →
  cached st t = Some v → cached (exec ops st) t = Some v.
Proof.
  intros Hops. revert st.
  induction Hops as [|op ops Hop _ IH]; intros st Hc; [done|].
  simpl. by apply IH, step_keeps_cached.
Qed.

Lemma cached_reset st t : cached (reset st) t = None.
Proof.
  unfold cached, reset; simpl. rewrite lookup_fmap.
  by destruct (registry st !! t).
Qed.

Lemma step_cache_allocated st op :
  cache_allocated st → cache_allocated (step st op).
Proof.
  intros Hst. destruct op as [target|d c k|type|]; simpl.
  - intros t v. rewrite cached_Injectable.
    unfold Injectable. case_decide; apply Hst.
  - apply Hst.
  - destruct (Container_get st type) as [[r st']|] eqn:E; [|done].
    apply get_steady in E as [_ _ _ _ _ Hl Hf].
    intros t v Hc. simpl in *. destruct (Hf t v Hc) as [Hc'|?]; [|lia].
    apply Hst in Hc'. lia.
  - intros t v. by rewrite cached_reset.
Qed.

Lemma exec_cache_allocated ops st :
  cache_allocated st → cache_allocated (exec ops st).
Proof.
  revert st. induction ops as [|op ops IH]; intros st Hst; simpl; [done|].
  by apply IH, step_cache_allocated.
Qed.

Lemma exec_declarations_uncached decls st t :
  Forall is_declaration decls →
  cached (exec decls st) t = cached st t.
Proof.
  intros Hd. revert st. induction Hd as [|op decls Hop _ IH]; intros st; [done|].
  simpl. rewrite IH. destruct op; try done. simpl. apply cached_Injectable.
Qed.

Lemma exec_uses_cache_sound uses st :
  Forall is_use uses → cache_sound st → cache_sound (exec uses st).
Proof.
  intros Hu. revert st. induction Hu as [|op uses Hop _ IH]; intros st Hst;
    [done|].
  simpl. apply IH. destruct op as [| |type|]; try done; simpl.
  - destruct (Container_get st type) as [[r st']|] eqn:E; [|done].
    by eapply get_cache_sound.
  - intros t v. by rewrite cached_reset.
Qed.

(** ** The claims *)

(** C5. [get] checks its argument before anything else: an undefined
    [type] raises the error whose message is the text below, whatever the
    registry holds; a defined [type] with no metadata in the registry raises
    the error naming it.  Neither changes the state. *)
Theorem get_input_gates fuel st :
  get fuel st None =
    Some (Throw (mkError "[DI] Cannot resolve dependency: type is undefined. Possible circular import or missing dependency."), st)
  ∧ ∀ type, registry st !! type = None →
      get fuel st (Some type) =
        Some (Throw (mkError ("[DI] " +:+ name type +:+ " is not registered. Use @Injectable")), st).
Proof.
  split; [by destruct fuel|].
  intros type Hreg. rewrite get_unfold. unfold gate. by rewrite Hreg.
Qed.

Lemma get_input_gates_witness :
  get 0 tests_loaded (Some UnDecoratedService) =
    Some (Throw (mkError "[DI] UnDecoratedService is not registered. Use @Injectable"),
          tests_loaded).
Proof.
  apply (proj2 (get_input_gates 0 tests_loaded) UnDecoratedService).
  vm_compute. reflexivity.
Defined.

(** C4. A type whose metadata holds an instance is answered with that
    instance at once: the state is left as found, and whether the type is in
    [resolving] is not looked at. *)
Theorem get_cache_hit fuel st type inst :
  cached st type = Some inst →
  get fuel st (Some type) = Some (Normal inst, st).
Proof.
  intros Hc. rewrite get_unfold.
  assert (gate st (Some type) = Some (Normal inst)) as ->; [|done].
  apply gate_Normal. eauto.
Qed.

Lemma get_cache_hit_witness :
  Root ∈ resolving diamond_reentered
  ∧ Middle ∈ resolving diamond_reentered
  ∧ get 0 diamond_reentered (Some Shared) = Some (Normal 1, diamond_reentered).
Proof.
  split; [by vm_compute|]. split; [by vm_compute|].
  apply (get_cache_hit 0 diamond_reentered Shared 1).
  vm_compute. reflexivity.
Defined.

Example get_diamond_top_level :
  ∃ st', Container_get diamond_loaded (Some Root) = Some (Normal 0, st')
         ∧ propOf st' 0 (inl "shared") = Some 1
         ∧ propOf st' 0 (inl "middle") = Some 2
         ∧ propOf st' 2 (inl "shared") = Some 1.
Proof. eexists. vm_compute. eauto. Qed.

Example get_cached_while_resolving :
  TestA ∈ resolving TestA_cached_resolving
  ∧ get 0 TestA_cached_resolving (Some TestA)
    = Some (Normal 1, TestA_cached_resolving).
Proof. split; by vm_compute. Qed.

(** C2. A call for a registered type with no cached instance that is in
    [resolving] raises the circular-dependency error naming that type and
    leaves the state as found.  When the type is not in [resolving] the call
    goes on to construct it: no other check for cycles stands in its way. *)
Theorem get_reentrant fuel st type :
  is_Some (registry st !! type) → cached st type = None →
  (type ∈ resolving st →
   get fuel st (Some type) =
     Some (Throw (mkError ("[DI] Circular dependency detected while resolving "
                           +:+ name type)), st))
  ∧ (type ∉ resolving st →
     get (S fuel) st (Some type) =
       leave type (length (heap st))
         (walkChain (get fuel) (length (heap st)) type (entered type st))).
Proof.
  intros [[[v|]] Hreg] Hc; unfold cached in Hc; rewrite Hreg in Hc; [done|].
  split; intros Hr; rewrite get_unfold; unfold gate; rewrite Hreg; simpl.
  - by rewrite decide_True.
  - by rewrite decide_False.
Qed.

Lemma get_reentrant_witness :
  get 0 cycle_reentered (Some CycA) =
    Some (Throw (mkError "[DI] Circular dependency detected while resolving A"),
          cycle_reentered).
Proof.
  apply (get_reentrant 0 cycle_reentered CycA).
  - vm_compute. eauto.
  - vm_compute. reflexivity.
  - vm_compute. reflexivity.
Defined.

Example get_cycle_top_level :
  fst <$> Container_get cycle_loaded (Some CycA) =
    Some (Throw (mkError "[DI] Circular dependency detected while resolving A")).
Proof. vm_compute. reflexivity. Qed.

(** C7. A call leaves [resolving] as it found it, whether it returns or
    throws; so in every state a program can reach, [resolving] is empty
    before a call from outside and empty again after it. *)
Theorem resolving_discipline :
  (∀ fuel st type r st',
     get fuel st type = Some (r, st') → resolving st' = resolving st)
  ∧ (∀ ops type,
       let st := exec ops initial in
       resolving st = ∅
       ∧ ∃ r st', Container_get st type = Some (r, st') ∧ resolving st' = ∅).
Proof.
  split.
  - intros fuel st type r st' Hget. by apply get_steady in Hget as [].
  - intros ops type st.
    assert (resolving st = ∅) as Hr by apply exec_resolving.
    split; [done|].
    destruct (Container_get_total st type) as [[r st'] Hget].
    exists r, st'. split; [done|].
    apply get_steady in Hget as []. congruence.
Qed.

Lemma resolving_discipline_witness :
  let st' := after cycle_loaded (get 2 cycle_loaded (Some CycA)) in
  resolving st' = resolving cycle_loaded.
Proof.
  intros st'.
  apply (proj1 resolving_discipline 2 cycle_loaded (Some CycA)
           (Throw (mkError "[DI] Circular dependency detected while resolving A"))).
  vm_compute. reflexivity.
Defined.

(** C9. A call from outside always ends: it returns an instance or
    throws one of the three errors, and a larger bound on the recursion
    gives the same answer.  Each nested call finds one more registered type
    in [resolving] than its caller did, and there are no more of those to
    take than the registry has types. *)
Theorem get_terminates st type :
  (∃ r st',
     Container_get st type = Some (r, st')
     ∧ match r with Normal _ => True | Throw e => container_error e end
     ∧ ∀ fuel, size (registry st) ≤ fuel → get fuel st type = Some (r, st'))
  ∧ pending st ≤ size (registry st)
  ∧ ∀ c1 c2, calls c1 c2 →
      pending (call_state c2) < pending (call_state c1)
      ∧ ∃ t, call_type c1 = Some t ∧ is_Some (registry (call_state c1) !! t)
             ∧ (t ∉ resolving (call_state c1))
             ∧ resolving (call_state c2) = {[t]} ∪ resolving (call_state c1).
Proof.
  split; [|split].
  - destruct (Container_get_total st type) as [[r st'] Hget].
    exists r, st'. split; [done|]. split.
    + destruct r as [v|e]; [done|]. by apply get_throws in Hget.
    + intros fuel Hfuel. by apply (get_fuel_le (size (registry st))).
  - apply pending_le_size.
  - intros c1 c2 Hcalls. split; [by apply calls_pending|].
    destruct (calls_resolving _ _ Hcalls) as (t & ? & ? & ? & ? & ?). eauto 10.
Qed.

Lemma get_terminates_witness :
  ∃ r st',
    Container_get cycle_loaded (Some CycA) = Some (r, st')
    ∧ match r with Normal _ => True | Throw e => container_error e end
    ∧ ∀ fuel, size (registry cycle_loaded) ≤ fuel →
              get fuel cycle_loaded (Some CycA) = Some (r, st').
Proof. exact (proj1 (get_terminates cycle_loaded (Some CycA))). Defined.

(** C3. The walk of a frame is one pass over the records declared on
    [type] and on each of its ancestors in turn, [type] first, each
    ancestor's records in the order they were declared, whether or not the
    ancestor is registered.  For each record the dependency is resolved by a
    nested call and written to the instance constructed at the start of the
    frame.  When the call returns, the property named by a record holds the
    cached instance of the record's dependency (the last record wins when
    several name one property). *)
Theorem get_injects_inherited fuel st type :
  gate st (Some type) = None →
  let inst := length (heap st) in
  let records := ancestors type ≫= λ a, default [] (injections st !! a) in
  walkChain (get fuel) inst type (entered type st)
    = injectAll (get fuel) inst records (entered type st)
  ∧ ∀ v st',
      get (S fuel) st (Some type) = Some (Normal v, st') →
      v = inst
      ∧ constructedBy <$> heap st' !! inst = Some type
      ∧ ∀ pre inj post,
          records = pre ++ inj :: post →
          Forall (λ j, key j ≠ key inj) post →
          ∃ d w, dependency inj = Some d ∧ cached st' d = Some w
                 ∧ propOf st' inst (key inj) = Some w.
Proof.
  intros G inst records. split.
  { apply walkChain_flat. intros s d r s' Hget.
    by apply get_steady in Hget as []. }
  intros v st'. rewrite get_flat by done.
  fold inst. change (allInjections (injections st) type) with records.
  destruct (injectAll _ _ records _) as [[[[]|e] st3]|] eqn:W; simpl; try done.
  intros [= <- <-].
  assert (inst < length (heap (entered type st))) as Hlt.
  { rewrite heap_entered, length_app. simpl. lia. }
  split; [done|]. split.
  - eapply (injectAll_inv _ _ (λ s, inst < length (heap s)
        ∧ constructedBy <$> heap s !! inst = Some type)) in W; [by apply W| | |].
    + intros s k w [Hl Hc]. simpl. rewrite length_alter. split; [done|].
      rewrite list_lookup_alter_eq.
      by destruct (heap s !! inst) as [o|].
    + intros s d r s' [Hl Hc] Hget. split.
      * apply get_steady in Hget as []. lia.
      * by rewrite (get_untouched _ _ _ _ _ Hget inst Hl).
    + split; [done|]. rewrite heap_entered. unfold inst.
      by rewrite list_lookup_middle.
  - intros pre inj post E Hpost.
    destruct (injectAll_assigns _ _ _ _ _ pre inj post Hlt W E Hpost)
      as (d & w & Hd & Hc & Hp).
    exists d, w. split; [done|]. split; [|done].
    rewrite cached_resolving_delete, cached_cache. case_decide; [|done].
    subst d. apply gate_None in G as (? & [= <-] & Hreg & Hn & Hr).
    apply injectAll_steady in W.
    by rewrite (walk_pending _ _ _ Hn W) in Hc.
Qed.

Lemma get_injects_inherited_witness :
  let st' := after tests_loaded (get 2 tests_loaded (Some MyController)) in
  registry tests_loaded !! BaseController = None
  ∧ injections tests_loaded !! MyController = None
  ∧ get 2 tests_loaded (Some MyController) = Some (Normal 0, st')
  ∧ ∃ logger, cached st' Logger = Some logger
              ∧ propOf st' 0 (inl "logger") = Some logger.
Proof.
  intros st'. split; [by vm_compute|]. split; [by vm_compute|].
  assert (get 2 tests_loaded (Some MyController) = Some (Normal 0, st')) as E
    by (vm_compute; reflexivity).
  split; [exact E|].
  destruct (get_injects_inherited 1 tests_loaded MyController) as [_ H];
    [by vm_compute|].
  destruct (H 0 st' E) as (_ & _ & Hrec).
  destruct (Hrec [] (mkInjection (inl "logger") (Some Logger)) [])
    as (d & w & [= <-] & Hc & Hp); [by vm_compute|constructor|].
  by exists w.
Defined.

(** C1. Once a call has returned an instance for a type, every later
    call for that type returns the same reference and changes nothing,
    whatever the program does in between short of a [reset].  The slot of a
    type is never overwritten: a call leaves every instance the registry
    holds where it is, and a frame that caches its instance does so in a slot
    that is still empty. *)
Theorem singleton_identity :
  (∀ fuel st type v st1,
     get fuel st (Some type) = Some (Normal v, st1) →
     ∀ between fuel',
       Forall (λ op, op ≠ OpReset) between →
       let st2 := exec between st1 in
       get fuel' st2 (Some type) = Some (Normal v, st2))
  ∧ (∀ fuel st arg r st',
       get fuel st arg = Some (r, st') →
       ∀ t v, cached st t = Some v → cached st' t = Some v)
  ∧ (∀ fuel st type u st3,
       gate st (Some type) = None →
       walkChain (get fuel) (length (heap st)) type (entered type st)
         = Some (u, st3) →
       cached st3 type = None).
Proof.
  split; [|split].
  - intros fuel st type v st1 Hget between fuel' Hbetween st2.
    apply get_cached, exec_keeps_cached; [done|].
    by destruct (get_Normal_cached _ _ _ _ _ Hget) as (? & [= <-] & ?).
  - intros fuel st arg r st' Hget. by apply get_steady in Hget as [].
  - intros fuel st type u st3 G W.
    apply gate_None in G as (? & [= <-] & Hreg & Hc & Hr).
    eauto using walk_pending, walkChain_steady.
Qed.

Lemma singleton_identity_witness :
  let st1 := after tests_loaded (get 1 tests_loaded (Some TestA)) in
  let st2 :=
    exec [OpGet (Some TestB); OpInjectable Foo; OpGet (Some MyController)] st1 in
  get 0 st2 (Some TestA) = Some (Normal 0, st2).
Proof.
  intros st1 st2.
  apply (proj1 singleton_identity 1 tests_loaded TestA 0 st1).
  - vm_compute. reflexivity.
  - by repeat constructor.
Defined.

(** C6. An error raised by a call nested at any depth below a call from
    outside is the error that call from outside throws, and it is one of the
    container's three.  Nothing is cached on the way out: when the outer call
    ends, the registry is as the failing call left it, with no instance for
    the type that call was for, nor for any type that was in [resolving]
    when it failed. *)
Theorem nested_failure_propagates c1 c2 e s :
  resolving (call_state c1) = ∅ →
  rtc calls c1 c2 →
  run c2 = Some (Throw e, s) →
  ∃ st',
    run c1 = Some (Throw e, st')
    ∧ container_error e
    ∧ registry st' = registry s
    ∧ (∀ t, call_type c2 = Some t → cached st' t = None)
    ∧ (∀ t, t ∈ resolving (call_state c2) → cached st' t = None).
Proof.
  intros Htop Hnest R.
  destruct (nested_throw _ _ _ _ Hnest R) as (st' & R1 & E).
  exists st'. split; [done|]. split; [by eapply get_throws|]. split; [done|].
  assert (∀ t, cached st' t = cached s t) as Hc.
  { intros t. unfold cached. by rewrite E. }
  split; intros t Ht; rewrite Hc.
  - unfold run in R. rewrite Ht in R. by eapply get_Throw_uncached.
  - apply (steady_pending _ _ (get_steady _ _ _ _ _ R)); [done|].
    apply (nested_stack_uncached _ _ Hnest); [|done].
    intros t'. rewrite Htop. by intros ?%not_elem_of_empty.
Qed.

Lemma nested_failure_propagates_witness :
  ∃ st',
    get 2 cycle_loaded (Some CycA) =
      Some (Throw (mkError "[DI] Circular dependency detected while resolving A"), st')
    ∧ cached st' CycA = None ∧ cached st' CycB = None.
Proof.
  destruct (nested_failure_propagates
              (mkCall 2 cycle_loaded (Some CycA))
              (mkCall 0 cycle_reentered (Some CycA))
              (mkError "[DI] Circular dependency detected while resolving A")
              cycle_reentered)
    as (st' & R & _ & _ & Hfailing & Hstack).
  - by vm_compute.
  - eapply rtc_l; [|apply rtc_once].
    + by apply (calls_intro 1 cycle_loaded CycA []
                  (mkInjection (inl "b") (Some CycB)) []).
    + by apply (calls_intro 0 (entered CycA cycle_loaded) CycB []
                  (mkInjection (inl "a") (Some CycA)) []).
  - by vm_compute.
  - exists st'. split; [exact R|]. split.
    + by apply Hfailing.
    + apply Hstack. by vm_compute.
Defined.

(** C10. When a call from outside throws, a nested call that had
    returned before the failure keeps its instance cached: the registry still
    holds it when the outer call ends, and every later call for that type,
    whatever the program does in between short of a [reset], returns it and
    constructs nothing. *)
Theorem completed_resolutions_stay_cached c1 c2 e st' d v s :
  run c1 = Some (Throw e, st') →
  rtc calls c1 c2 →
  call_type c2 = Some d →
  run c2 = Some (Normal v, s) →
  cached st' d = Some v
  ∧ ∀ later fuel,
      Forall (λ op, op ≠ OpReset) later →
      let st'' := exec later st' in
      get fuel st'' (Some d) = Some (Normal v, st'').
Proof.
  intros R1 Hnest Hd R2.
  destruct (nested_answer _ _ _ _ Hnest R1) as (r & s' & R2' & Hc).
  rewrite R2 in R2'. injection R2' as <- <-.
  destruct (get_Normal_cached _ _ _ _ _ R2) as (d' & Hd' & Hv).
  rewrite Hd in Hd'. injection Hd' as <-.
  split; [by apply Hc|].
  intros later fuel Hlater st''.
  apply get_cached, exec_keeps_cached; [done|]. by apply Hc.
Qed.

Lemma completed_resolutions_stay_cached_witness :
  let st' := after broken_loaded (get 2 broken_loaded (Some Consumer)) in
  let st'' := exec [OpGet (Some Consumer)] st' in
  fst <$> get 2 broken_loaded (Some Consumer) =
    Some (Throw (mkError "[DI] Bar is not registered. Use @Injectable"))
  ∧ cached st' Foo = Some 1
  ∧ get 0 st'' (Some Foo) = Some (Normal 1, st'').
Proof.
  intros st' st''. split; [by vm_compute|].
  destruct (completed_resolutions_stay_cached
              (mkCall 2 broken_loaded (Some Consumer))
              (mkCall 1 (entered Consumer broken_loaded) (Some Foo))
              (mkError "[DI] Bar is not registered. Use @Injectable")
              st' Foo 1
              (after (entered Consumer broken_loaded)
                 (get 1 (entered Consumer broken_loaded) (Some Foo))))
    as [Hc Hlater].
  - by vm_compute.
  - apply rtc_once.
    by apply (calls_intro 1 broken_loaded Consumer []
                (mkInjection (inl "foo") (Some Foo))
                [mkInjection (inl "bar") (Some Bar)]).
  - reflexivity.
  - by vm_compute.
  - split; [exact Hc|].
    apply (Hlater [OpGet (Some Consumer)] 0). by repeat constructor.
Defined.

(** C8. [reset] empties the slot of every registered type and changes
    nothing else: the same types are registered, with the same injection
    records.  In a program that declares first and uses the container
    afterwards, a type resolved before a [reset] is resolved again after it,
    to a new instance.  In any program at all, a call after the [reset] never
    returns the instance returned before it. *)
Theorem reset_invalidates :
  (∀ st,
     (∀ t, cached (reset st) t = None)
     ∧ dom (registry (reset st)) = dom (registry st)
     ∧ injections (reset st) = injections st
     ∧ resolving (reset st) = resolving st
     ∧ heap (reset st) = heap st)
  ∧ (∀ decls uses type v1 st1,
       Forall is_declaration decls → Forall is_use uses →
       Container_get (exec (decls ++ uses) initial) (Some type)
         = Some (Normal v1, st1) →
       ∃ v2 st2,
         Container_get (reset st1) (Some type) = Some (Normal v2, st2)
         ∧ v2 ≠ v1)
  ∧ (∀ ops type v1 st1 r2 st2,
       Container_get (exec ops initial) (Some type) = Some (Normal v1, st1) →
       Container_get (reset st1) (Some type) = Some (r2, st2) →
       r2 ≠ Normal v1).
Proof.
  assert (∀ ops type v1 st1 r2 st2,
    Container_get (exec ops initial) (Some type) = Some (Normal v1, st1) →
    Container_get (reset st1) (Some type) = Some (r2, st2) →
    r2 ≠ Normal v1) as Hnew.
  { intros ops type v1 st1 r2 st2 H1 H2 ->.
    assert (cache_allocated st1) as Halloc.
    { pose proof (step_cache_allocated (exec ops initial) (OpGet (Some type)))
        as H. simpl in H. rewrite H1 in H. apply H.
      by apply exec_cache_allocated. }
    destruct (get_Normal_cached _ _ _ _ _ H1) as (? & [= <-] & Hc1).
    destruct (get_Normal_cached _ _ _ _ _ H2) as (? & [= <-] & Hc2).
    apply Halloc in Hc1.
    destruct (steady_fresh _ _ (get_steady _ _ _ _ _ H2) _ _ Hc2) as [Hc|Hc].
    - by rewrite cached_reset in Hc.
    - simpl in Hc. lia. }
  split; [|split; [|done]].
  - intros st. split; [apply cached_reset|]. split; [|done].
    unfold reset; simpl. apply dom_fmap_L.
  - intros decls uses type v1 st1 Hd Hu H1.
    set (st := exec (decls ++ uses) initial) in *.
    assert (cache_sound st) as Hsound.
    { unfold st. rewrite exec_app. apply exec_uses_cache_sound; [done|].
      intros t v. by rewrite (exec_declarations_uncached decls initial t Hd). }
    assert (resolving st1 = ∅) as Hr.
    { rewrite (steady_resolving _ _ (get_steady _ _ _ _ _ H1)).
      apply exec_resolving. }
    destruct (get_Normal_cached _ _ _ _ _ H1) as (? & [= <-] & Hc1).
    destruct (get_cache_sound _ _ _ _ _ Hsound H1 _ _ Hc1) as [depth Hres].
    destruct (resolvable_get depth (size (registry (reset st1))) (reset st1) type)
      as (v2 & st2 & H2).
    + apply (resolvable_ext st1); [done| |done]. apply dom_fmap_L.
    + simpl. rewrite Hr. by intros t' ?%not_elem_of_empty.
    + apply pending_le_size.
    + exists v2, st2. split; [done|].
      intros ->. by eapply (Hnew (decls ++ uses)).
Qed.

Lemma reset_invalidates_witness :
  let st1 := exec [OpGet (Some TestA); OpGet (Some TestB)] tests_loaded in
  ∃ v2 st2,
    Container_get (reset st1) (Some TestB) = Some (Normal v2, st2) ∧ v2 ≠ 1.
Proof.
  intros st1.
  apply (proj1 (proj2 reset_invalidates)
           tests_program [OpGet (Some TestA)] TestB 1 st1).
  - unfold tests_program. by repeat constructor.
  - by repeat constructor.
  - vm_compute. reflexivity.
Defined.

(** ** The tests of [index.test.ts], run on the model *)

Example test_undecorated :
  fst <$> Container_get tests_loaded (Some UnDecoratedService) =
    Some (Throw (mkError "[DI] UnDecoratedService is not registered. Use @Injectable")).
Proof. vm_compute. reflexivity. Qed.

Example test_circular_import :
  fst <$> Container_get fixtures_loaded (Some FixtureA) =
    Some (Throw (mkError "[DI] Cannot resolve dependency: type is undefined. Possible circular import or missing dependency.")).
Proof. vm_compute. reflexivity. Qed.

Example test_reuses_instance :
  let st1 := exec [OpGet (Some TestB)] tests_loaded in
  fst <$> Container_get tests_loaded (Some TestB) = Some (Normal 0)
  ∧ fst <$> Container_get st1 (Some TestA) = Some (Normal 1)
  ∧ propOf st1 0 (inl "testA") = Some 1.
Proof. vm_compute. eauto. Qed.

Example test_reset :
  let st1 := exec [OpGet (Some TestA)] tests_loaded in
  fst <$> Container_get tests_loaded (Some TestA) = Some (Normal 0)
  ∧ fst <$> Container_get (reset st1) (Some TestA) = Some (Normal 1).
Proof. vm_compute. eauto. Qed.

(** ** Further properties: the decorators *)

(** X1. [Injectable] registers its target and nothing else: the target
    has metadata afterwards, no other type is added, no cached instance is
    changed, and the injection records, [resolving] and the objects are as
    they were.  Decorating a class that is registered already changes
    nothing at all, so it keeps its cached instance, and decorating twice is
    the same as decorating once. *)
Theorem Injectable_registers target st :
  let st' := Injectable target st in
  is_Some (registry st' !! target)
  ∧ dom (registry st') = {[target]} ∪ dom (registry st)
  ∧ (∀ t, cached st' t = cached st t)
  ∧ injections st' = injections st
  ∧ resolving st' = resolving st
  ∧ heap st' = heap st
  ∧ (is_Some (registry st !! target) → st' = st)
  ∧ Injectable target st' = st'.
Proof.
  intros st'. unfold st', Injectable.
  destruct (decide (is_Some (registry st !! target))) as [Hreg|Hreg]; simpl.
  - rewrite decide_True by done. repeat split; try done.
    apply elem_of_dom in Hreg. symmetry.
    by apply subseteq_union_1_L, singleton_subseteq_l.
  - rewrite decide_True by (simpl; rewrite lookup_insert_eq; eauto).
    repeat split; try done.
    + rewrite lookup_insert_eq. eauto.
    + apply dom_insert_L.
    + intros t. unfold cached; simpl.
      destruct (decide (target = t)) as [<-|Hne].
      * rewrite lookup_insert_eq. simpl.
        by destruct (registry st !! target) eqn:E; [destruct Hreg; eauto|].
      * by rewrite lookup_insert_ne.
Qed.

Lemma Injectable_registers_witness :
  let st := exec [OpGet (Some TestA)] tests_loaded in
  cached st TestA = Some 0 ∧ Injectable TestA st = st.
Proof.
  intros st. split; [by vm_compute|].
  destruct (Injectable_registers TestA st) as (_ & _ & _ & _ & _ & _ & H & _).
  apply H. vm_compute. eauto.
Defined.

Lemma exec_injections ops st c :
  default [] (injections (exec ops st) !! c)
  = default [] (injections st !! c) ++ declared_by c ops.
Proof.
  revert st. induction ops as [|op ops IH]; intros st; simpl.
  - by rewrite app_nil_r.
  - rewrite IH. destruct op as [target|d c' k|type|]; simpl;
      rewrite ?app_nil_r; try done.
    + unfold Injectable. by case_decide.
    + case_decide as Hc.
      * subst c'. rewrite lookup_insert_eq. simpl. by rewrite <- app_assoc.
      * by rewrite lookup_insert_ne.
    + destruct (Container_get st type) as [[r st']|] eqn:E; [|done].
      simpl. by rewrite (steady_injections _ _ (get_steady _ _ _ _ _ E)).
Qed.

(** X2. The records of a class are the ones its [Inject] calls pushed,
    in the order of the calls, after the ones it had: no other operation of
    a program adds, drops or reorders a record, and a call for one class
    leaves the records of every other class alone. *)
Theorem Inject_keeps_declaration_order ops st c :
  default [] (injections (exec ops st) !! c)
  = default [] (injections st !! c) ++ declared_by c ops
  ∧ ∀ dependency propertyKey,
      default [] (injections (Inject dependency c propertyKey st) !! c)
      = default [] (injections st !! c) ++ [mkInjection propertyKey dependency]
      ∧ ∀ c', c' ≠ c →
          injections (Inject dependency c propertyKey st) !! c'
          = injections st !! c'.
Proof.
  split; [apply exec_injections|].
  intros d k. split; simpl.
  - by rewrite lookup_insert_eq.
  - intros c' Hne. by rewrite lookup_insert_ne.
Qed.

Lemma Inject_keeps_declaration_order_witness :
  default [] (injections (exec broken_program initial) !! Consumer)
  = [mkInjection (inl "foo") (Some Foo); mkInjection (inl "bar") (Some Bar)]
  ∧ injections (Inject None Consumer (inl "baz") broken_loaded) !! Foo
    = injections broken_loaded !! Foo.
Proof.
  split.
  - rewrite (proj1 (Inject_keeps_declaration_order broken_program initial
                      Consumer)).
    by vm_compute.
  - apply (proj2 (Inject_keeps_declaration_order [] broken_loaded Consumer)).
    by vm_compute.
Defined.

Lemma exec_registered ops st :
  dom (registry (exec ops st))
  = dom (registry st) ∪ list_to_set (decorated ops).
Proof.
  revert st. induction ops as [|op ops IH]; intros st; simpl.
  - by rewrite union_empty_r_L.
  - rewrite IH. destruct op as [target|d c k|type|]; simpl; try done.
    + unfold Injectable. case_decide as Hreg; simpl.
      * apply elem_of_dom in Hreg.
        rewrite (union_assoc_L _ {[target]}). f_equal. symmetry.
        rewrite (union_comm_L _ {[target]}).
        by apply subseteq_union_1_L, singleton_subseteq_l.
      * rewrite dom_insert_L, (union_assoc_L _ {[target]}). f_equal.
        apply union_comm_L.
    + destruct (Container_get st type) as [[r st']|] eqn:E; [|done].
      simpl. by rewrite (steady_dom _ _ (get_steady _ _ _ _ _ E)).
    + unfold reset; simpl. by rewrite dom_fmap_L.
Qed.

(** X3. The registered types of a program are the ones it started with
    and the ones it passed to [Injectable]: [Inject], [get] and [reset]
    never register a type and nothing ever removes one. *)
Theorem registered_iff_decorated ops st t :
  is_Some (registry (exec ops st) !! t)
  ↔ is_Some (registry st !! t) ∨ t ∈ decorated ops.
Proof.
  rewrite <- !elem_of_dom, exec_registered, elem_of_union, elem_of_list_to_set.
  done.
Qed.

(** X4. A class that a program never passed to [Injectable] cannot be
    resolved, whatever was injected into it or its ancestors: the call throws
    the not-registered error naming it and changes nothing. *)
Theorem undecorated_is_rejected ops type :
  type ∉ decorated ops →
  let st := exec ops initial in
  Container_get st (Some type) =
    Some (Throw (mkError ("[DI] " +:+ name type
                          +:+ " is not registered. Use @Injectable")), st).
Proof.
  intros Hnot st. apply get_gate. unfold gate.
  destruct (registry st !! type) as [meta|] eqn:E; [|done].
  assert (type ∈ dom (registry st)) as Hin by (apply elem_of_dom; eauto).
  unfold st in Hin. rewrite exec_registered, elem_of_union in Hin.
  destruct Hin as [Hin|Hin%elem_of_list_to_set]; [|done].
  by apply elem_of_dom in Hin as [? ?].
Qed.

Lemma undecorated_is_rejected_witness :
  Container_get tests_loaded (Some BaseController) =
    Some (Throw (mkError "[DI] BaseController is not registered. Use @Injectable"),
          tests_loaded).
Proof.
  apply (undecorated_is_rejected tests_program BaseController).
  vm_compute. intros H. repeat (apply elem_of_cons in H as [H|H]; [done|]).
  by apply elem_of_nil in H.
Defined.

(** X5. Decorators of different classes can run in any order: [Injectable]
    commutes with [Inject] and with itself, and two [Inject] calls on
    different classes commute. *)
Theorem decorators_commute :
  (∀ target dependency constructor propertyKey st,
     Injectable target (Inject dependency constructor propertyKey st)
     = Inject dependency constructor propertyKey (Injectable target st))
  ∧ (∀ t1 t2 st,
       Injectable t1 (Injectable t2 st) = Injectable t2 (Injectable t1 st))
  ∧ (∀ d1 c1 k1 d2 c2 k2 st,
       c1 ≠ c2 →
       Inject d1 c1 k1 (Inject d2 c2 k2 st)
       = Inject d2 c2 k2 (Inject d1 c1 k1 st)).
Proof.
  split; [|split].
  - intros target d c k st. unfold Injectable, Inject; simpl.
    by case_decide.
  - intros t1 t2 st. destruct (decide (t1 = t2)) as [->|Hne]; [done|].
    assert (∀ (t t' : Constructable) (m : gmap Constructable Metadata),
              t ≠ t' →
              is_Some (<[t := mkMetadata None]> m !! t') ↔ is_Some (m !! t'))
      as Hother by (intros t t' m ?; by rewrite lookup_insert_ne).
    unfold Injectable.
    destruct (decide (is_Some (registry st !! t1))) as [H1|H1],
             (decide (is_Some (registry st !! t2))) as [H2|H2]; simpl;
      repeat case_decide; try done;
      try (exfalso; rewrite Hother in * by done; tauto).
    f_equal. by apply insert_insert_ne.
  - intros d1 c1 k1 d2 c2 k2 st Hne. unfold Inject; simpl.
    rewrite !lookup_insert_ne by done. f_equal. by apply insert_insert_ne.
Qed.

Lemma decorators_commute_witness :
  Inject (Some TestA) TestB (inl "testA") (Inject (Some Logger) BaseController (inl "logger") initial)
  = Inject (Some Logger) BaseController (inl "logger") (Inject (Some TestA) TestB (inl "testA") initial).
Proof.
  apply (proj2 (proj2 decorators_commute)). by vm_compute.
Defined.

(** ** Further properties: objects *)

Lemma step_heap st op :
  length (heap st) ≤ length (heap (step st op))
  ∧ untouched_below (length (heap st)) st (step st op).
Proof.
  destruct op as [target|d c k|type|]; simpl; try done.
  - unfold Injectable. by case_decide.
  - destruct (Container_get st type) as [[r st']|] eqn:E; [|done].
    split; [apply (steady_length _ _ (get_steady _ _ _ _ _ E))|].
    by eapply get_untouched.
Qed.

Lemma exec_heap ops st :
  length (heap st) ≤ length (heap (exec ops st))
  ∧ untouched_below (length (heap st)) st (exec ops st).
Proof.
  revert st. induction ops as [|op ops IH]; intros st; simpl; [done|].
  destruct (step_heap st op) as [Hl Hu], (IH (step st op)) as [Hl' Hu'].
  split; [lia|]. intros i Hi. rewrite Hu' by lia. by apply Hu.
Qed.

(** X6. An object that exists when an operation starts is never written to
    again, by any program: [get] defines properties only on the objects its
    own frames construct, and the decorators and [reset] touch no object.
    The heap never shrinks. *)
Theorem finished_objects_are_left_alone ops st i :
  i < length (heap st) →
  heap (exec ops st) !! i = heap st !! i
  ∧ length (heap st) ≤ length (heap (exec ops st)).
Proof.
  intros Hi. destruct (exec_heap ops st) as [Hl Hu]. split; [by apply Hu|done].
Qed.

Lemma finished_objects_are_left_alone_witness :
  let st := exec [OpGet (Some TestB)] tests_loaded in
  heap (exec [OpReset; OpGet (Some TestB); OpGet (Some MyController)] st) !! 0
  = heap st !! 0.
Proof.
  intros st.
  apply (finished_objects_are_left_alone
           [OpReset; OpGet (Some TestB); OpGet (Some MyController)] st 0).
  vm_compute. lia.
Defined.

Lemma step_fresh_since bound st op :
  bound ≤ length (heap st) →
  (∀ t v, cached st t = Some v → bound ≤ v) →
  ∀ t v, cached (step st op) t = Some v → bound ≤ v.
Proof.
  intros Hb Hst t v. destruct op as [target|d c k|type|]; simpl.
  - rewrite cached_Injectable. apply Hst.
  - apply Hst.
  - destruct (Container_get st type) as [[r st']|] eqn:E; [|apply Hst].
    simpl. intros Hc.
    destruct (steady_fresh _ _ (get_steady _ _ _ _ _ E) _ _ Hc) as [?|?];
      [eauto|lia].
  - by rewrite cached_reset.
Qed.

Lemma exec_fresh_since bound ops st :
  bound ≤ length (heap st) →
  (∀ t v, cached st t = Some v → bound ≤ v) →
  ∀ t v, cached (exec ops st) t = Some v → bound ≤ v.
Proof.
  revert st. induction ops as [|op ops IH]; intros st Hb Hst; simpl; [done|].
  apply IH; [|by apply step_fresh_since].
  destruct (step_heap st op). lia.
Qed.

(** X7. After a [reset], no object that existed before it is handed out
    again: whatever the program does next, every instance the registry holds,
    and every instance a call returns, was constructed after the [reset]. *)
Theorem reset_retires_every_instance ops st type v st' :
  Container_get (exec ops (reset st)) (Some type) = Some (Normal v, st') →
  length (heap st) ≤ v
  ∧ ∀ t w, cached st' t = Some w → length (heap st) ≤ w.
Proof.
  intros Hget.
  assert (∀ t w, cached st' t = Some w → length (heap st) ≤ w) as Hall.
  { pose proof (exec_fresh_since (length (heap st))
                  (ops ++ [OpGet (Some type)]) (reset st)) as H.
    rewrite exec_app in H. simpl in H. rewrite Hget in H. simpl in H.
    apply H; [done|]. intros t w. by rewrite cached_reset. }
  split; [|done].
  destruct (get_Normal_cached _ _ _ _ _ Hget) as (? & [= <-] & Hc). eauto.
Qed.

Lemma reset_retires_every_instance_witness :
  let st := exec [OpGet (Some TestB); OpGet (Some MyController)] tests_loaded in
  length (heap st) = 4
  ∧ ∃ v st',
      Container_get (exec [OpGet (Some TestA)] (reset st)) (Some TestB)
        = Some (Normal v, st')
      ∧ 4 ≤ v.
Proof.
  intros st. split; [by vm_compute|].
  exists 5, (exec [OpGet (Some TestA); OpGet (Some TestB)] (reset st)).
  assert (Container_get (exec [OpGet (Some TestA)] (reset st)) (Some TestB)
          = Some (Normal 5,
                  exec [OpGet (Some TestA); OpGet (Some TestB)] (reset st)))
    as E by (vm_compute; reflexivity).
  split; [exact E|].
  exact (proj1 (reset_retires_every_instance _ _ _ _ _ E)).
Defined.

Lemma constructedBy_defineProperty inst k v st i :
  constructedBy <$> heap (defineProperty inst k v st) !! i
  = constructedBy <$> heap st !! i.
Proof.
  simpl. destruct (decide (inst = i)) as [->|Hne].
  - rewrite list_lookup_alter_eq. by destruct (heap st !! i).
  - by rewrite list_lookup_alter_ne.
Qed.

Lemma get_cache_typed fuel st type r st' :
  cache_typed st → get fuel st type = Some (r, st') → cache_typed st'.
Proof.
  revert st type r st'. induction fuel as [|fuel IH];
    intros st type r st' Hst Hget;
    apply get_inv in Hget
      as [[_ ->]|(t & fuel' & [u st3] & -> & [= <-] & G & W & L)]; try done.
  set (inst := length (heap st)) in *.
  set (I := λ s, inst < length (heap s) ∧ cache_typed s
                 ∧ constructedBy <$> heap s !! inst = Some t).
  assert (I st3) as (_ & Htyped & Hinst).
  { eapply (injectAll_inv _ _ I); [| | |exact W].
    - intros s k v (Hl & Hs & Hi). split; [simpl; by rewrite length_alter|].
      split; [|by rewrite constructedBy_defineProperty].
      intros t' v' Hc. rewrite constructedBy_defineProperty. by apply Hs.
    - intros s d r' s' (Hl & Hs & Hi) R. split.
      { pose proof (steady_length _ _ (get_steady _ _ _ _ _ R)). lia. }
      split; [by eapply IH|].
      by rewrite (get_untouched _ _ _ _ _ R inst Hl).
    - split; [rewrite heap_entered, length_app; simpl; lia|].
      split.
      + intros t' v' Hc. rewrite cached_entered in Hc.
        pose proof (Hst _ _ Hc) as Hv. rewrite heap_entered.
        destruct (heap st !! v') as [o|] eqn:E; [|done].
        by rewrite (lookup_app_l_Some _ _ _ _ E).
      + rewrite heap_entered. unfold inst. by rewrite list_lookup_middle. }
  destruct u as [[]|e]; simpl in L; injection L as <- <-; [|done].
  intros t' v'. rewrite cached_resolving_delete, cached_cache.
  case_decide as Ht; [|by apply Htyped]. subst t'. by intros [= <-].
Qed.

Lemma step_cache_typed st op : cache_typed st → cache_typed (step st op).
Proof.
  intros Hst. destruct op as [target|d c k|type|]; simpl.
  - intros t v. rewrite cached_Injectable. unfold Injectable.
    case_decide; apply Hst.
  - apply Hst.
  - destruct (Container_get st type) as [[r st']|] eqn:E; [|done].
    by eapply get_cache_typed.
  - intros t v. by rewrite cached_reset.
Qed.

Lemma exec_cache_typed ops st : cache_typed st → cache_typed (exec ops st).
Proof.
  revert st. induction ops as [|op ops IH]; intros st Hst; simpl; [done|].
  by apply IH, step_cache_typed.
Qed.

(** X8. In any program, the instance [get] returns for a type is an
    object constructed by that type, whether it was constructed by this call
    or cached by an earlier one; and so is every instance the registry
    holds. *)
Theorem get_returns_an_instance_of_type ops type v st' :
  Container_get (exec ops initial) (Some type) = Some (Normal v, st') →
  constructedBy <$> heap st' !! v = Some type
  ∧ ∀ t w, cached st' t = Some w → constructedBy <$> heap st' !! w = Some t.
Proof.
  intros Hget.
  assert (cache_typed st') as Htyped.
  { eapply get_cache_typed; [|exact Hget]. by apply exec_cache_typed. }
  split; [|exact Htyped].
  destruct (get_Normal_cached _ _ _ _ _ Hget) as (? & [= <-] & Hc).
  by apply Htyped.
Qed.

Lemma get_returns_an_instance_of_type_witness :
  let st := exec (tests_program ++ [OpGet (Some TestB)]) initial in
  let st' := exec [OpGet (Some TestA)] st in
  constructedBy <$> heap st' !! 1 = Some TestA.
Proof.
  intros st st'.
  assert (Container_get (exec (tests_program ++ [OpGet (Some TestB)]) initial)
            (Some TestA) = Some (Normal 1, st')) as E
    by (vm_compute; reflexivity).
  exact (proj1 (get_returns_an_instance_of_type _ _ _ _ E)).
Defined.

(** ** Further properties: which calls return *)

Lemma exec_staged_cache_sound decls uses :
  Forall is_declaration decls → Forall is_use uses →
  cache_sound (exec (decls ++ uses) initial).
Proof.
  intros Hd Hu. rewrite exec_app. apply exec_uses_cache_sound; [done|].
  intros t v. by rewrite (exec_declarations_uncached decls initial t Hd).
Qed.

(** X9. In a program that declares first and uses the container
    afterwards, a call from outside returns an instance exactly when its
    type is resolvable: registered, with every record met by the walk naming
    a defined dependency that is resolvable in turn (so no cycle, no
    unregistered and no undefined dependency anywhere below it).  Earlier
    calls that threw do not change this. *)
Theorem get_returns_iff_resolvable decls uses type :
  Forall is_declaration decls → Forall is_use uses →
  let st := exec (decls ++ uses) initial in
  (∃ v st', Container_get st (Some type) = Some (Normal v, st'))
  ↔ ∃ depth, resolvable st depth type.
Proof.
  intros Hd Hu st.
  pose proof (exec_staged_cache_sound decls uses Hd Hu) as Hsound.
  fold st in Hsound. split.
  - intros (v & st' & Hget).
    destruct (get_Normal_cached _ _ _ _ _ Hget) as (? & [= <-] & Hc).
    destruct (get_cache_sound _ _ _ _ _ Hsound Hget _ _ Hc) as [depth Hres].
    exists depth. by apply (resolvable_steady st st' _ _ (get_steady _ _ _ _ _ Hget)).
  - intros [depth Hres]. apply (resolvable_get depth); [done| |].
    + unfold st. rewrite exec_resolving. by intros t' ?%not_elem_of_empty.
    + apply pending_le_size.
Qed.

Lemma get_returns_iff_resolvable_witness :
  let st := exec (cycle_program ++ [OpGet (Some CycA)]) initial in
  ¬ (∃ depth, resolvable st depth CycB)
  ∧ ¬ (∃ v st', Container_get st (Some CycB) = Some (Normal v, st')).
Proof.
  intros st.
  assert (¬ (∃ v st', Container_get st (Some CycB) = Some (Normal v, st')))
    as Hthrows.
  { intros (v & st' & E). by vm_compute in E. }
  split; [|exact Hthrows].
  intros Hres. apply Hthrows.
  apply (proj2 (get_returns_iff_resolvable cycle_program [OpGet (Some CycA)]
                  CycB ltac:(unfold cycle_program; by repeat constructor)
                  ltac:(by repeat constructor))).
  exact Hres.
Defined.

Lemma injectAll_Throw_origin fuel inst recs st e st' :
  injectAll (get fuel) inst recs st = Some (Throw e, st') →
  ∃ inj s, inj ∈ recs ∧ steady st s
           ∧ get fuel s (dependency inj) = Some (Throw e, st').
Proof.
  revert st. induction recs as [|inj recs IH]; intros st; simpl; [done|].
  destruct (get fuel st (dependency inj)) as [[[v|e'] s1]|] eqn:R; [| |done].
  - intros (inj' & s & Hin & Hs & R')%IH.
    exists inj', s. split; [by right|]. split; [|done].
    etrans; [by eapply get_steady|].
    etrans; [apply steady_defineProperty|done].
  - intros [= <- <-]. exists inj, st. split; [by left|]. by split.
Qed.

Lemma declared_closed_ext st st' :
  injections st' = injections st →
  dom (registry st') = dom (registry st) →
  declared_closed st → declared_closed st'.
Proof.
  intros Ei Ed Hst c inj. rewrite Ei. intros (d & Hd & Hreg)%Hst.
  exists d. split; [done|]. by rewrite <- elem_of_dom, Ed, elem_of_dom.
Qed.

Lemma allInjections_declared inj st t :
  inj ∈ allInjections (injections st) t →
  ∃ c, inj ∈ default [] (injections st !! c).
Proof.
  unfold allInjections. intros (c & Hin & _)%list_elem_of_bind. eauto.
Qed.

(** X10. When every record of every class names a defined, registered
    dependency, resolving a registered type can fail in one way only: with
    the circular-dependency error, naming a registered type. *)
Theorem closed_graph_fails_only_by_cycle fuel st type e st' :
  declared_closed st →
  is_Some (registry st !! type) →
  get fuel st (Some type) = Some (Throw e, st') →
  ∃ t, is_Some (registry st !! t)
       ∧ e = mkError ("[DI] Circular dependency detected while resolving "
                      +:+ name t).
Proof.
  revert st type e st'. induction fuel as [|fuel IH];
    intros st type e st' Hclosed Hreg Hget;
    apply get_inv in Hget
      as [[G ->]|(t & fuel' & [u st3] & [= <-] & [= <-] & G & W & L)].
  1,2: unfold gate in G; destruct Hreg as [[[v|]] Hreg]; rewrite Hreg in G;
    simpl in G; [done|case_decide; [|done]]; injection G as <-;
    exists type; (split; [by rewrite Hreg|done]).
  destruct u as [[]|e']; simpl in L; [done|]. injection L as <- <-.
  apply injectAll_Throw_origin in W as (inj & s & Hin & Hs & R).
  apply allInjections_declared in Hin as [c Hin].
  destruct (Hclosed c inj Hin) as (d & Hd & Hdreg).
  pose proof (steady_injections _ _ Hs) as Ei.
  pose proof (steady_dom _ _ Hs) as Ed.
  rewrite Hd in R.
  destruct (IH s d e' st3) as (t' & Ht' & ->); [| |done|].
  - by apply (declared_closed_ext st).
  - by rewrite <- elem_of_dom, Ed, elem_of_dom.
  - exists t'. split; [|done].
    rewrite <- elem_of_dom in Ht'. rewrite Ed in Ht'. by apply elem_of_dom in Ht'.
Qed.

Lemma closed_graph_fails_only_by_cycle_witness :
  ∃ t, is_Some (registry cycle_loaded !! t)
       ∧ mkError "[DI] Circular dependency detected while resolving A"
         = mkError ("[DI] Circular dependency detected while resolving "
                   +:+ name t).
Proof.
  apply (closed_graph_fails_only_by_cycle 2 cycle_loaded CycA _
           (after cycle_loaded (get 2 cycle_loaded (Some CycA)))).
  - intros c inj Hin.
    destruct (injections cycle_loaded !! c) as [recs|] eqn:E; simpl in Hin;
      [|by apply elem_of_nil in Hin].
    apply elem_of_map_to_list in E. vm_compute in E.
    apply elem_of_cons in E as [[= -> ->]|E];
      [|apply elem_of_cons in E as [[= -> ->]|E]; [|by apply elem_of_nil in E]];
      apply list_elem_of_singleton in Hin as ->;
      eexists; (split; [reflexivity|]); vm_compute; eauto.
  - vm_compute. eauto.
  - vm_compute. reflexivity.
Defined.

(** ** Further properties: the constructed instance *)

Lemma injectAll_from_cache fuel st type records m :
  Forall (λ inj, is_Some (dependency inj ≫= cached st)) records →
  injectAll (get fuel) (length (heap st)) records
    (mkState (registry st) (injections st) ({[type]} ∪ resolving st)
             (heap st ++ [mkObj type m]))
  = Some (Normal (),
          mkState (registry st) (injections st) ({[type]} ∪ resolving st)
            (heap st ++
             [mkObj type
                (foldl (λ m inj,
                          match dependency inj ≫= cached st with
                          | Some w => <[key inj := w]> m
                          | None => m
                          end) m records)])).
Proof.
  intros Hall. revert m. induction Hall as [|inj records [w Hw] _ IH];
    intros m; simpl; [done|].
  rewrite Hw. destruct (dependency inj) as [d|] eqn:Hd; [|done].
  simpl in Hw. rewrite (get_cached fuel _ d w) by done.
  rewrite <- IH. f_equal. unfold defineProperty; simpl. f_equal.
  by rewrite <- (Nat.add_0_r (length (heap st))), alter_app_r.
Qed.

(** X11. When every dependency the walk meets is cached already, a call
    for an uncached type constructs exactly one object, writes to no other,
    and ends in the state written out below: the new object carries one
    property per declared key (the last record of a key wins), its type is
    cached, and nothing else has changed.  A type with no records at all is
    the case of an empty list. *)
Theorem get_with_cached_dependencies fuel st type :
  gate st (Some type) = None →
  let records := allInjections (injections st) type in
  Forall (λ inj, is_Some (dependency inj ≫= cached st)) records →
  get (S fuel) st (Some type) =
    Some (Normal (length (heap st)),
          mkState (<[type := mkMetadata (Some (length (heap st)))]> (registry st))
                  (injections st) (resolving st)
                  (heap st ++ [mkObj type (injected st records)])).
Proof.
  intros G records Hall. rewrite get_flat by done. fold records.
  change (entered type st)
    with (mkState (registry st) (injections st) ({[type]} ∪ resolving st)
            (heap st ++ [mkObj type ∅])).
  rewrite injectAll_from_cache by done. simpl.
  unfold resolving_delete, cache, injected; simpl. do 3 f_equal.
  apply gate_None in G as (? & [= <-] & _ & _ & Hr).
  apply set_eq. intros x.
  rewrite elem_of_difference, elem_of_union, elem_of_singleton.
  split; [by intros [[->|?] ?]|]. intros Hx. split; [by right|by intros ->].
Qed.

Lemma get_with_cached_dependencies_witness :
  let st := exec [OpGet (Some TestA)] tests_loaded in
  get 1 st (Some TestB) =
    Some (Normal 1,
          mkState (<[TestB := mkMetadata (Some 1)]> (registry st))
                  (injections st) (resolving st)
                  (heap st ++ [mkObj TestB {[ inl "testA" := 0 ]}])).
Proof.
  intros st.
  apply (get_with_cached_dependencies 0 st TestB).
  - by vm_compute.
  - vm_compute. repeat constructor. eauto.
Defined.

Lemma last_filter_Some {A} (P : A → Prop) `{!∀ x, Decision (P x)} l x :
  last (filter P l) = Some x →
  ∃ pre post, l = pre ++ x :: post ∧ P x ∧ Forall (λ y, ¬ P y) post.
Proof.
  induction l as [|y l IH] using rev_ind; [done|].
  rewrite filter_app, last_app. simpl.
  destruct (decide (P y)) as [Hy|Hy].
  - rewrite filter_cons_True by done. simpl. intros [= <-].
    exists l, []. by repeat split.
  - rewrite filter_cons_False by done. simpl.
    intros (pre & post & -> & Hx & Hpost)%IH.
    exists pre, (post ++ [y]). rewrite <- app_assoc. repeat split; [done|].
    apply Forall_app. split; [done|]. by constructor.
Qed.

Lemma last_filter_None {A} (P : A → Prop) `{!∀ x, Decision (P x)} l :
  last (filter P l) = None → Forall (λ y, ¬ P y) l.
Proof.
  rewrite last_None. intros Hnil.
  apply Forall_forall. intros y Hin Hy.
  by eapply filter_nil_not_elem_of.
Qed.

(** X12. The instance a frame returns has exactly the declared
    properties: for every key, the property holds the cached instance of the
    dependency of the last record of the walk that names the key, and it is
    undefined when no record names it.  A record declared on an ancestor
    comes later in the walk, so it wins over one declared on a subclass for
    the same key. *)
Theorem constructed_instance_has_declared_properties fuel st type v st' k :
  gate st (Some type) = None →
  get (S fuel) st (Some type) = Some (Normal v, st') →
  propOf st' v k =
    inj ← last (filter (λ inj, key inj = k) (allInjections (injections st) type));
    d ← dependency inj;
    cached st' d.
Proof.
  intros G. rewrite get_flat by done.
  destruct (injectAll _ _ _ _) as [[[[]|e] st3]|] eqn:W; simpl; try done.
  intros [= <- <-].
  set (inst := length (heap st)) in *.
  assert (inst < length (heap (entered type st))) as Hlt.
  { rewrite heap_entered, length_app. simpl. lia. }
  change (propOf (resolving_delete type (cache type inst st3)) inst k)
    with (propOf st3 inst k).
  destruct (last _) as [inj|] eqn:Hlast; simpl.
  - apply last_filter_Some in Hlast as (pre & post & E & <- & Hpost).
    destruct (injectAll_assigns _ _ _ _ _ pre inj post Hlt W E)
      as (d & w & Hd & Hc & Hp).
    { eapply Forall_impl; [done|]. naive_solver. }
    rewrite Hd, Hp. simpl.
    rewrite cached_resolving_delete, cached_cache. case_decide; [|done].
    subst d. apply gate_None in G as (? & [= <-] & Hreg & Hn & Hr).
    apply injectAll_steady in W.
    by rewrite (walk_pending _ _ _ Hn W) in Hc.
  - apply last_filter_None in Hlast.
    destruct (injectAll_other_keys _ _ k _ _ _ _ Hlt Hlast W) as [_ ->].
    unfold propOf. rewrite heap_entered. unfold inst.
    by rewrite list_lookup_middle.
Qed.

Lemma constructed_instance_has_declared_properties_witness :
  let st' := after shadow_loaded (get 2 shadow_loaded (Some ShadowDerived)) in
  get 2 shadow_loaded (Some ShadowDerived) = Some (Normal 0, st')
  ∧ propOf st' 0 (inl "dep") = cached st' ServiceOne
  ∧ cached st' ServiceOne = Some 2
  ∧ cached st' ServiceTwo = Some 1
  ∧ propOf st' 0 (inl "other") = None.
Proof.
  intros st'.
  assert (gate shadow_loaded (Some ShadowDerived) = None) as G by by vm_compute.
  assert (get 2 shadow_loaded (Some ShadowDerived) = Some (Normal 0, st')) as E
    by (vm_compute; reflexivity).
  split; [exact E|].
  rewrite !(constructed_instance_has_declared_properties
              1 shadow_loaded ShadowDerived 0 st' _ G E).
  repeat split; by vm_compute.
Defined.

(** ** Further properties: how much a call constructs *)

Lemma elem_of_constructible st t :
  t ∈ constructible st
  ↔ is_Some (registry st !! t) ∧ cached st t = None ∧ t ∉ resolving st.
Proof. unfold constructible. rewrite elem_of_filter, elem_of_dom. tauto. Qed.

Lemma constructible_entered t st :
  gate st (Some t) = None →
  size (constructible st) = S (size (constructible (entered t st))).
Proof.
  intros (? & [= <-] & Hreg & Hc & Hr)%gate_None.
  assert (constructible st = {[t]} ∪ constructible (entered t st)) as ->.
  { apply set_eq. intros x.
    rewrite elem_of_union, elem_of_singleton, !elem_of_constructible.
    rewrite resolving_entered, cached_entered, elem_of_union, elem_of_singleton.
    change (registry (entered t st)) with (registry st).
    destruct (decide (x = t)) as [->|]; tauto. }
  rewrite (size_union (C:=gset Constructable) {[t]});
    [by rewrite size_singleton|].
  intros x. rewrite elem_of_singleton, elem_of_constructible, resolving_entered,
    elem_of_union, elem_of_singleton. tauto.
Qed.

Lemma constructible_cached t inst st3 :
  is_Some (registry st3 !! t) → t ∈ resolving st3 →
  constructible (resolving_delete t (cache t inst st3)) = constructible st3.
Proof.
  intros Hreg Hr. apply set_eq. intros x.
  rewrite !elem_of_constructible, cached_resolving_delete, cached_cache.
  simpl. rewrite elem_of_difference, elem_of_singleton.
  destruct (decide (t = x)) as [<-|Hne].
  - rewrite lookup_insert_eq. split; [by intros (_ & ? & _)|tauto].
  - rewrite lookup_insert_ne by done. split.
    + intros (? & ? & Hx). repeat split; [done..|]. intros ?. apply Hx. by split.
    + intros (? & ? & Hx). repeat split; [done..|]. by intros [? _].
Qed.

Lemma within_budget_defineProperty {A} i k v s (r : Completion A) s' :
  within_budget (defineProperty i k v s) r s' → within_budget s r s'.
Proof.
  unfold within_budget.
  change (constructible (defineProperty i k v s)) with (constructible s).
  replace (length (heap (defineProperty i k v s))) with (length (heap s))
    by (simpl; by rewrite length_alter).
  done.
Qed.

Lemma injectAll_budget fuel inst recs st r st' :
  (∀ s d r s', get fuel s d = Some (r, s') → within_budget s r s') →
  injectAll (get fuel) inst recs st = Some (r, st') →
  within_budget st r st'.
Proof.
  intros Hget. revert st. induction recs as [|inj recs IH]; intros st; simpl.
  - intros [= <- <-]. simpl. lia.
  - destruct (get fuel st (dependency inj)) as [[[v|e] s1]|] eqn:R; [| |done].
    + apply Hget in R. intros W%IH%within_budget_defineProperty.
      unfold within_budget in *. destruct r; lia.
    + intros [= <- <-]. by apply Hget in R.
Qed.

Lemma get_budget fuel st type r st' :
  get fuel st type = Some (r, st') → within_budget st r st'.
Proof.
  revert st type r st'. induction fuel as [|fuel IH];
    intros st type r st' Hget;
    apply get_inv in Hget
      as [[_ ->]|(t & fuel' & [u st3] & -> & [= <-] & G & W & L)];
    try (destruct r; simpl; lia).
  pose proof (constructible_entered t st G) as Hsize.
  pose proof (injectAll_steady _ _ _ _ _ _ W) as Hs.
  apply (injectAll_budget _ _ _ _ _ _ (IH)) in W.
  unfold within_budget in W. rewrite heap_entered, length_app in W.
  unfold within_budget.
  destruct u as [[]|e]; simpl in L; injection L as <- <-;
    cbn [length] in W;
    [|change (heap (resolving_delete t st3)) with (heap st3); lia].
  change (heap (resolving_delete t (cache t (length (heap st)) st3)))
    with (heap st3).
  rewrite constructible_cached; [lia| |].
  - apply gate_None in G as (? & [= <-] & Hreg & _).
    rewrite <- elem_of_dom, (steady_dom _ _ Hs). by apply elem_of_dom.
  - rewrite (steady_resolving _ _ Hs), resolving_entered.
    apply elem_of_union_l. by apply elem_of_singleton.
Qed.

(** X13. A call constructs at most one object for each registered type
    that has no cached instance and is not being resolved when the call
    starts, whether it returns or throws; when it returns, every object it
    constructed is paid for by a type that is cached afterwards.  With no
    such type left, a call constructs nothing. *)
Theorem get_constructs_each_type_at_most_once fuel st type r st' :
  get fuel st type = Some (r, st') →
  length (heap st') ≤ length (heap st) + size (constructible st)
  ∧ (∀ v, r = Normal v →
       length (heap st') + size (constructible st')
       ≤ length (heap st) + size (constructible st))
  ∧ (constructible st = ∅ → length (heap st') = length (heap st)).
Proof.
  intros Hget. pose proof (get_budget _ _ _ _ _ Hget) as Hb.
  pose proof (steady_length _ _ (get_steady _ _ _ _ _ Hget)) as Hl.
  unfold within_budget in Hb.
  split; [destruct r; lia|]. split.
  - by intros v ->.
  - intros Hempty. rewrite Hempty, size_empty in Hb. destruct r; lia.
Qed.

Lemma get_constructs_each_type_at_most_once_witness :
  let st' := after tests_loaded (get 2 tests_loaded (Some MyController)) in
  size (constructible tests_loaded) = 4
  ∧ length (heap st') ≤ length (heap tests_loaded) + 4.
Proof.
  intros st'. split; [by vm_compute|].
  assert (size (constructible tests_loaded) = 4) as <- by by vm_compute.
  apply (get_constructs_each_type_at_most_once 2 tests_loaded
           (Some MyController) (Normal 0) st').
  vm_compute. reflexivity.
Defined.

(** ** Further properties: the object graph and the registry *)

Lemma wired_at_ext st st' t v k :
  injections st' = injections st →
  (∀ d w, cached st d = Some w → cached st' d = Some w) →
  propOf st' v k = propOf st v k →
  wired_at st t v k → wired_at st' t v k.
Proof.
  unfold wired_at. intros -> Hc ->.
  destruct (last _) as [inj|]; [|done].
  intros (d & w & ? & ? & ?). exists d, w. eauto.
Qed.

Lemma propOf_untouched st st' v k :
  untouched_below (length (heap st)) st st' → v < length (heap st) →
  propOf st' v k = propOf st v k.
Proof. intros Hu Hv. unfold propOf. by rewrite Hu. Qed.

Lemma propOf_defineProperty_ne st inst k w v k' :
  inst ≠ v → propOf (defineProperty inst k w st) v k' = propOf st v k'.
Proof. intros Hne. unfold propOf; simpl. by rewrite list_lookup_alter_ne. Qed.

(** The walk of a frame wires the instance of the frame. *)
Lemma walk_wires fuel st t st3 k :
  gate st (Some t) = None →
  injectAll (get fuel) (length (heap st)) (allInjections (injections st) t)
    (entered t st) = Some (Normal (), st3) →
  wired_at st3 t (length (heap st)) k.
Proof.
  intros G W. set (inst := length (heap st)) in *.
  assert (inst < length (heap (entered t st))) as Hlt.
  { rewrite heap_entered, length_app. simpl. lia. }
  unfold wired_at.
  rewrite (steady_injections _ _ (injectAll_steady _ _ _ _ _ _ W)).
  change (injections (entered t st)) with (injections st).
  destruct (last _) as [inj|] eqn:Hlast.
  - apply last_filter_Some in Hlast as (pre & post & E & <- & Hpost).
    apply (injectAll_assigns _ _ _ _ _ pre inj post Hlt W E).
    eapply Forall_impl; [done|]. naive_solver.
  - apply last_filter_None in Hlast.
    destruct (injectAll_other_keys _ _ k _ _ _ _ Hlt Hlast W) as [_ ->].
    unfold propOf. rewrite heap_entered. unfold inst.
    by rewrite list_lookup_middle.
Qed.

Lemma get_wired fuel st type r st' :
  wired st → get fuel st type = Some (r, st') → wired st'.
Proof.
  revert st type r st'. induction fuel as [|fuel IH];
    intros st type r st' Hst Hget;
    apply get_inv in Hget
      as [[_ ->]|(t & fuel' & [u st3] & -> & [= <-] & G & W & L)]; try done.
  set (inst := length (heap st)) in *.
  pose proof G as (? & [= <-] & Hreg & Hn & Hr)%gate_None.
  set (I := λ s, inst < length (heap s) ∧ wired s
                 ∧ ∀ t' v', cached s t' = Some v' → v' ≠ inst).
  assert (I (entered t st)) as H0.
  { split; [rewrite heap_entered, length_app; simpl; lia|]. split.
    - intros t' v' Hc. rewrite cached_entered in Hc.
      destruct (Hst _ _ Hc) as [Hv Hk].
      split; [rewrite heap_entered, length_app; lia|].
      intros k. apply (wired_at_ext st); [done|done| |done].
      unfold propOf. rewrite heap_entered. by rewrite lookup_app_l.
    - intros t' v' Hc. rewrite cached_entered in Hc.
      destruct (Hst _ _ Hc) as [Hv _]. unfold inst. lia. }
  assert (I st3) as (Hl3 & Hw3 & Hne3).
  { eapply (injectAll_inv _ _ I); [| |exact H0|exact W].
    - intros s k w (Hl & Hw & Hne).
      split; [simpl; by rewrite length_alter|]. split; [|done].
      intros t' v' Hc. destruct (Hw _ _ Hc) as [Hv Hk].
      split; [simpl; by rewrite length_alter|].
      intros k'. apply (wired_at_ext s); [done|done| |done].
      apply propOf_defineProperty_ne. intros <-. by eapply Hne.
    - intros s d r' s' (Hl & Hw & Hne) R.
      pose proof (get_steady _ _ _ _ _ R) as Hs.
      split; [pose proof (steady_length _ _ Hs); lia|].
      split; [by eapply IH|].
      intros t' v' Hc. destruct (steady_fresh _ _ Hs _ _ Hc) as [Hc'|?];
        [by eapply Hne|lia]. }
  pose proof (injectAll_steady _ _ _ _ _ _ W) as Hs3.
  pose proof (walk_pending _ _ _ Hn Hs3) as Hn3.
  destruct u as [[]|e]; simpl in L; injection L as <- <-; [|exact Hw3].
  intros t' v'. rewrite cached_resolving_delete, cached_cache.
  assert (∀ d w, cached st3 d = Some w →
            cached (resolving_delete t (cache t inst st3)) d = Some w) as Hkeep.
  { intros d w Hd. rewrite cached_resolving_delete, cached_cache.
    case_decide; [congruence|done]. }
  case_decide as Ht.
  - subst t'. intros [= <-]. split; [exact Hl3|].
    intros k. apply (wired_at_ext st3); [done|done|done|].
    by eapply walk_wires.
  - intros Hc. destruct (Hw3 _ _ Hc) as [Hv Hk]. split; [exact Hv|].
    intros k. by apply (wired_at_ext st3).
Qed.

Lemma exec_uses_wired uses st :
  Forall is_use uses → wired st → wired (exec uses st).
Proof.
  intros Hu. revert st. induction Hu as [|op uses Hop _ IH]; intros st Hst;
    [done|].
  simpl. apply IH. destruct op as [| |type|]; try done; simpl.
  - destruct (Container_get st type) as [[r st']|] eqn:E; [|done].
    by eapply get_wired.
  - intros t v. by rewrite cached_reset.
Qed.

(** X14. In a program that declares first and uses the container
    afterwards, the objects and the registry always agree: for every instance
    the registry holds and every property key, the property is the instance
    the registry currently holds for the declared dependency (that of the
    last record of the walk naming the key), and it is undefined when no
    record names the key.  So every holder of a dependency refers to the one
    object that [get] returns for it. *)
Theorem injected_properties_are_the_cached_instances decls uses t v k :
  Forall is_declaration decls → Forall is_use uses →
  let st := exec (decls ++ uses) initial in
  cached st t = Some v →
  propOf st v k =
    inj ← last (filter (λ inj, key inj = k) (allInjections (injections st) t));
    d ← dependency inj;
    cached st d.
Proof.
  intros Hd Hu st Hc.
  assert (wired st) as Hw.
  { unfold st. rewrite exec_app. apply exec_uses_wired; [done|].
    intros t' v'. by rewrite (exec_declarations_uncached decls initial t' Hd). }
  destruct (Hw _ _ Hc) as [_ Hk]. specialize (Hk k). unfold wired_at in Hk.
  destruct (last _) as [inj|]; simpl; [|done].
  destruct Hk as (d & w & Hdep & Hw' & Hp). by rewrite Hp, Hdep.
Qed.

Lemma injected_properties_are_the_cached_instances_witness :
  let st :=
    exec (diamond_program
          ++ [OpGet (Some Middle); OpReset; OpGet (Some Root)]) initial in
  cached st Root = Some 2
  ∧ cached st Middle = Some 4
  ∧ propOf st 2 (inl "shared") = cached st Shared
  ∧ propOf st 4 (inl "shared") = cached st Shared.
Proof.
  intros st.
  assert (Forall is_declaration diamond_program) as Hd
    by (unfold diamond_program; by repeat constructor).
  assert (Forall is_use [OpGet (Some Middle); OpReset; OpGet (Some Root)])
    as Hu by by repeat constructor.
  assert (cached st Root = Some 2) as HR by by vm_compute.
  assert (cached st Middle = Some 4) as HM by by vm_compute.
  split; [exact HR|]. split; [exact HM|].
  pose proof (injected_properties_are_the_cached_instances
                _ _ Root 2 (inl "shared") Hd Hu HR) as ER.
  pose proof (injected_properties_are_the_cached_instances
                _ _ Middle 4 (inl "shared") Hd Hu HM) as EM.
  fold st in ER, EM. rewrite ER, EM.
  split; by vm_compute.
Defined.

End DI.
